(** * beatbox-recorder: the recording wrapper of [src/index.ts]

    A shallow embedding of the [Beatbox] class: the argument fingerprint
    ([generateHash]), the JSON replacer and reviver with the two builtins
    they are handed to ([JSON.stringify], [JSON.parse]), the storage life
    cycle ([loadStorage], [saveStorage]) and the two wrappers that [wrap]
    returns.

    Conventions of the model.
    - A JavaScript string is kept as the sequence of its UTF-8 bytes.
    - A number is an integer or one of the three non-finite doubles;
      fractions and exponents are outside the modelled number type, and the
      JSON reader refuses a literal that has one.
    - Objects live in a heap and are named by their address, so that
      identity, aliasing and cycles are those of the program.
    - The depth of the engine's call stack is a parameter ([limit]): a
      recursion that needs more frames ends in a [RangeError], as it does
      in the engine. *)

From Stdlib Require Import ZArith NArith Ascii String List Bool Lia.
From stdpp Require Import base option list gmap strings.

Local Open Scope Z_scope.

(** ** Text *)

Module Text.

Definition dquote : ascii := ascii_of_nat 34.
Definition backslash : ascii := ascii_of_nat 92.
Definition newline : ascii := ascii_of_nat 10.

Definition str1 (c : ascii) : string := String c EmptyString.

Fixpoint join (sep : string) (l : list string) : string :=
  match l with
  | [] => EmptyString
  | [x] => x
  | x :: rest => x +:+ sep +:+ join sep rest
  end.

Definition is_empty (s : string) : bool :=
  match s with EmptyString => true | _ => false end.

Definition digit_char (n : N) : ascii := ascii_of_N (48 + n).

Definition hex_char (n : N) : ascii :=
  if (n <? 10)%N then ascii_of_N (48 + n) else ascii_of_N (87 + n).

(** Decimal digits of [n], most significant first; [fuel] bounds the
    number of digits. *)
Fixpoint digits_go (fuel : nat) (n : N) (acc : string) : string :=
  match fuel with
  | O => acc
  | S f =>
      let acc' := String (digit_char (n mod 10)) acc in
      if (n / 10 =? 0)%N then acc' else digits_go f (n / 10)%N acc'
  end.

Definition N_to_string (n : N) : string :=
  digits_go (S (N.to_nat (N.log2 n))) n EmptyString.

(** [Number::toString] on an integer. *)
Definition Z_to_string (z : Z) : string :=
  match z with
  | Z0 => "0"
  | Zpos p => N_to_string (Npos p)
  | Zneg p => String "-" (N_to_string (Npos p))
  end.

Definition nat_to_string (n : nat) : string := N_to_string (N.of_nat n).



End Text.

(** ** JSON documents and their text *)

Module Json.
Import Text.

(** The value a JSON text denotes. *)
#[local] Unset Elimination Schemes.
Inductive json : Type :=
| JNull
| JBool (b : bool)
| JNum (z : Z)
| JStr (s : string)
| JArr (items : list json)
| JObj (members : list (string * json)).
#[local] Set Elimination Schemes.

(** *** Writing: [QuoteJSONString] and the layout of [JSON.stringify] *)

Definition quote_char (c : ascii) : string :=
  let n := N_of_ascii c in
  if (n =? 34)%N then String backslash (str1 dquote)
  else if (n =? 92)%N then String backslash (str1 backslash)
  else if (n =? 8)%N then String backslash "b"
  else if (n =? 9)%N then String backslash "t"
  else if (n =? 10)%N then String backslash "n"
  else if (n =? 12)%N then String backslash "f"
  else if (n =? 13)%N then String backslash "r"
  else if (n <? 32)%N then
    String backslash
      (String "u" (String "0" (String "0"
         (String (hex_char (n / 16)) (str1 (hex_char (n mod 16)))))))
  else str1 c.

Fixpoint quote_body (s : string) : string :=
  match s with
  | EmptyString => EmptyString
  | String c rest => quote_char c +:+ quote_body rest
  end.

Definition quote (s : string) : string :=
  String dquote (quote_body s +:+ str1 dquote).

(** [gap] is the indentation unit ([EmptyString] for the compact form),
    [indent] the current indentation. *)
Fixpoint render (gap indent : string) (j : json) : string :=
  match j with
  | JNull => "null"
  | JBool true => "true"
  | JBool false => "false"
  | JNum z => Z_to_string z
  | JStr s => quote s
  | JArr items =>
      let inner := indent +:+ gap in
      let parts := List.map (render gap inner) items in
      match items with
      | [] => "[]"
      | _ =>
          if is_empty gap then "[" +:+ join "," parts +:+ "]"
          else
            "[" +:+ str1 newline +:+ inner
                +:+ join ("," +:+ str1 newline +:+ inner) parts
                +:+ str1 newline +:+ indent +:+ "]"
      end
  | JObj members =>
      let inner := indent +:+ gap in
      let colon := if is_empty gap then ":" else ": " in
      let parts :=
        List.map (fun kv => quote (fst kv) +:+ colon +:+ render gap inner (snd kv))
                 members in
      match members with
      | [] => "{}"
      | _ =>
          if is_empty gap then "{" +:+ join "," parts +:+ "}"
          else
            "{" +:+ str1 newline +:+ inner
                +:+ join ("," +:+ str1 newline +:+ inner) parts
                +:+ str1 newline +:+ indent +:+ "}"
      end
  end.

Definition compact (j : json) : string := render EmptyString EmptyString j.

(** *** Reading: the grammar of [JSON.parse] *)

Definition is_ws (c : ascii) : bool :=
  let n := N_of_ascii c in
  (n =? 32)%N || (n =? 9)%N || (n =? 10)%N || (n =? 13)%N.

Fixpoint skip_ws (s : string) : string :=
  match s with
  | String c rest => if is_ws c then skip_ws rest else s
  | EmptyString => s
  end.

Definition digit_val (c : ascii) : option N :=
  let n := N_of_ascii c in
  if ((48 <=? n) && (n <=? 57))%N then Some (n - 48)%N else None.

Definition hex_val (c : ascii) : option N :=
  let n := N_of_ascii c in
  if ((48 <=? n) && (n <=? 57))%N then Some (n - 48)%N
  else if ((97 <=? n) && (n <=? 102))%N then Some (n - 87)%N
  else if ((65 <=? n) && (n <=? 70))%N then Some (n - 55)%N
  else None.

(** The UTF-8 bytes of a code point of the basic plane; a surrogate has
    none (a string that holds one is outside the model). *)
Definition utf8_of_code (n : N) : option string :=
  if (n <? 128)%N then Some (str1 (ascii_of_N n))
  else if (n <? 2048)%N then
    Some (String (ascii_of_N (192 + n / 64)) (str1 (ascii_of_N (128 + n mod 64))))
  else if ((55296 <=? n) && (n <=? 57343))%N then None
  else
    Some (String (ascii_of_N (224 + n / 4096))
           (String (ascii_of_N (128 + (n / 64) mod 64))
              (str1 (ascii_of_N (128 + n mod 64))))).

Definition read_escape (e : ascii) : option ascii :=
  let n := N_of_ascii e in
  if (n =? 34)%N then Some dquote
  else if (n =? 92)%N then Some backslash
  else if (n =? 47)%N then Some "/"%char
  else if (n =? 98)%N then Some (ascii_of_nat 8)
  else if (n =? 102)%N then Some (ascii_of_nat 12)
  else if (n =? 110)%N then Some (ascii_of_nat 10)
  else if (n =? 114)%N then Some (ascii_of_nat 13)
  else if (n =? 116)%N then Some (ascii_of_nat 9)
  else None.

(** The characters of a string literal after its opening quote, up to
    and including the closing one. *)
Fixpoint read_string_body (s : string) : option (string * string) :=
  match s with
  | EmptyString => None
  | String c rest =>
      if Ascii.eqb c dquote then Some (EmptyString, rest)
      else if Ascii.eqb c backslash then
        match rest with
        | String e rest1 =>
            if Ascii.eqb e "u" then
              match rest1 with
              | String h1 (String h2 (String h3 (String h4 rest2))) =>
                  match hex_val h1, hex_val h2, hex_val h3, hex_val h4 with
                  | Some a, Some b, Some c', Some d =>
                      match utf8_of_code (((a * 16 + b) * 16 + c') * 16 + d)%N,
                            read_string_body rest2 with
                      | Some bytes, Some (body, tail) => Some (bytes +:+ body, tail)
                      | _, _ => None
                      end
                  | _, _, _, _ => None
                  end
              | _ => None
              end
            else
              match read_escape e, read_string_body rest1 with
              | Some ch, Some (body, tail) => Some (String ch body, tail)
              | _, _ => None
              end
        | EmptyString => None
        end
      else if (N_of_ascii c <? 32)%N then None
      else
        match read_string_body rest with
        | Some (body, tail) => Some (String c body, tail)
        | None => None
        end
  end.

(** A run of decimal digits, folded into [acc]. *)
Fixpoint read_digits (acc : N) (s : string) : N * string :=
  match s with
  | String c rest =>
      match digit_val c with
      | Some d => read_digits (acc * 10 + d)%N rest
      | None => (acc, s)
      end
  | EmptyString => (acc, s)
  end.

Definition starts_fraction (s : string) : bool :=
  match s with
  | String c _ =>
      let n := N_of_ascii c in (n =? 46)%N || (n =? 101)%N || (n =? 69)%N
  | EmptyString => false
  end.

(** An integer literal without its sign: [0], or a digit run that does
    not start with [0]. *)
Definition read_natural (s : string) : option (N * string) :=
  match s with
  | String c rest =>
      match digit_val c with
      | Some 0%N =>
          match rest with
          | String c' _ =>
              match digit_val c' with
              | Some _ => None
              | None => if starts_fraction rest then None else Some (0%N, rest)
              end
          | EmptyString => Some (0%N, rest)
          end
      | Some d =>
          let '(n, tail) := read_digits d rest in
          if starts_fraction tail then None else Some (n, tail)
      | None => None
      end
  | EmptyString => None
  end.

Definition read_number (s : string) : option (Z * string) :=
  match s with
  | String "-" rest =>
      match read_natural rest with
      | Some (n, tail) => Some (- Z.of_N n, tail)
      | None => None
      end
  | _ =>
      match read_natural s with
      | Some (n, tail) => Some (Z.of_N n, tail)
      | None => None
      end
  end.

(** [s] without its prefix [word], when it starts with it. *)
Fixpoint expect (word : string) (s : string) : option string :=
  match word, s with
  | EmptyString, _ => Some s
  | String a word', String b s' => if Ascii.eqb a b then expect word' s' else None
  | String _ _, EmptyString => None
  end.

(** What follows [close], when [close] is the next character that is not
    a blank. *)
Definition closes (close : ascii) (s : string) : option string :=
  match skip_ws s with
  | String c tail => if Ascii.eqb c close then Some tail else None
  | EmptyString => None
  end.

Fixpoint read_value (fuel : nat) (s : string) {struct fuel} : option (json * string) :=
  match fuel with
  | O => None
  | S f =>
      match skip_ws s with
      | EmptyString => None
      | String c rest =>
          let n := N_of_ascii c in
          if (n =? 110)%N then
            match expect "ull" rest with Some tail => Some (JNull, tail) | None => None end
          else if (n =? 116)%N then
            match expect "rue" rest with Some tail => Some (JBool true, tail) | None => None end
          else if (n =? 102)%N then
            match expect "alse" rest with Some tail => Some (JBool false, tail) | None => None end
          else if (n =? 34)%N then
            match read_string_body rest with
            | Some (body, tail) => Some (JStr body, tail)
            | None => None
            end
          else if (n =? 91)%N then
            match closes "]" rest with
            | Some tail => Some (JArr [], tail)
            | None =>
                match read_items f rest with
                | Some (items, tail) => Some (JArr items, tail)
                | None => None
                end
            end
          else if (n =? 123)%N then
            match closes "}" rest with
            | Some tail => Some (JObj [], tail)
            | None =>
                match read_members f rest with
                | Some (members, tail) => Some (JObj members, tail)
                | None => None
                end
            end
          else
            match read_number (String c rest) with
            | Some (z, tail) => Some (JNum z, tail)
            | None => None
            end
      end
  end
with read_items (fuel : nat) (s : string) {struct fuel} : option (list json * string) :=
  match fuel with
  | O => None
  | S f =>
      match read_value f s with
      | Some (v, rest) =>
          match skip_ws rest with
          | String "," rest' =>
              match read_items f rest' with
              | Some (items, tail) => Some (v :: items, tail)
              | None => None
              end
          | String "]" tail => Some ([v], tail)
          | _ => None
          end
      | None => None
      end
  end
with read_members (fuel : nat) (s : string) {struct fuel}
     : option (list (string * json) * string) :=
  match fuel with
  | O => None
  | S f =>
      match skip_ws s with
      | String c rest =>
          if Ascii.eqb c dquote then
            match read_string_body rest with
            | Some (key, rest1) =>
                match skip_ws rest1 with
                | String ":" rest2 =>
                    match read_value f rest2 with
                    | Some (v, rest3) =>
                        match skip_ws rest3 with
                        | String "," rest4 =>
                            match read_members f rest4 with
                            | Some (members, tail) => Some ((key, v) :: members, tail)
                            | None => None
                            end
                        | String "}" tail => Some ([(key, v)], tail)
                        | _ => None
                        end
                    | None => None
                    end
                | _ => None
                end
            | None => None
            end
          else None
      | EmptyString => None
      end
  end.

(** The whole text must be one value, blanks around it apart.  Every
    level of nesting and every item takes one unit of fuel, so the length
    of the text is always enough. *)
Definition read (s : string) : option json :=
  match read_value (S (String.length s)) s with
  | Some (j, tail) => if is_empty (skip_ws tail) then Some j else None
  | None => None
  end.

(** Fuel that is enough to read [compact j] back. *)
Fixpoint weight (j : json) : nat :=
  match j with
  | JArr items => S (list_sum (List.map (fun x => S (weight x)) items))
  | JObj members => S (list_sum (List.map (fun kv => S (weight (snd kv))) members))
  | _ => 1
  end.

End Json.

(** ** MD5, as [crypto.createHash('md5')] computes it *)

Module Md5.

Definition mask32 (x : Z) : Z := Z.land x 0xffffffff.

Definition rotl32 (x : Z) (c : Z) : Z :=
  mask32 (Z.lor (Z.shiftl x c) (Z.shiftr (mask32 x) (32 - c))).

Definition shifts : list Z :=
  [7; 12; 17; 22; 7; 12; 17; 22; 7; 12; 17; 22; 7; 12; 17; 22;
   5; 9; 14; 20; 5; 9; 14; 20; 5; 9; 14; 20; 5; 9; 14; 20;
   4; 11; 16; 23; 4; 11; 16; 23; 4; 11; 16; 23; 4; 11; 16; 23;
   6; 10; 15; 21; 6; 10; 15; 21; 6; 10; 15; 21; 6; 10; 15; 21].

Definition sines : list Z :=
  [0xd76aa478; 0xe8c7b756; 0x242070db; 0xc1bdceee; 0xf57c0faf; 0x4787c62a;
   0xa8304613; 0xfd469501; 0x698098d8; 0x8b44f7af; 0xffff5bb1; 0x895cd7be;
   0x6b901122; 0xfd987193; 0xa679438e; 0x49b40821; 0xf61e2562; 0xc040b340;
   0x265e5a51; 0xe9b6c7aa; 0xd62f105d; 0x02441453; 0xd8a1e681; 0xe7d3fbc8;
   0x21e1cde6; 0xc33707d6; 0xf4d50d87; 0x455a14ed; 0xa9e3e905; 0xfcefa3f8;
   0x676f02d9; 0x8d2a4c8a; 0xfffa3942; 0x8771f681; 0x6d9d6122; 0xfde5380c;
   0xa4beea44; 0x4bdecfa9; 0xf6bb4b60; 0xbebfbc70; 0x289b7ec6; 0xeaa127fa;
   0xd4ef3085; 0x04881d05; 0xd9d4d039; 0xe6db99e5; 0x1fa27cf8; 0xc4ac5665;
   0xf4292244; 0x432aff97; 0xab9423a7; 0xfc93a039; 0x655b59c3; 0x8f0ccc92;
   0xffeff47d; 0x85845dd1; 0x6fa87e4f; 0xfe2ce6e0; 0xa3014314; 0x4e0811a1;
   0xf7537e82; 0xbd3af235; 0x2ad7d2bb; 0xeb86d391].

Fixpoint bytes_of_string (s : string) : list Z :=
  match s with
  | EmptyString => []
  | String c rest => Z.of_N (N_of_ascii c) :: bytes_of_string rest
  end.

(** [n] bytes of [x], least significant first. *)
Fixpoint le_bytes (n : nat) (x : Z) : list Z :=
  match n with
  | O => []
  | S n' => Z.land x 255 :: le_bytes n' (Z.shiftr x 8)
  end.

(** The message followed by the bit [1], zeros up to 56 modulo 64 bytes,
    and the length in bits on 64 bits. *)
Definition pad (msg : list Z) : list Z :=
  let len := Z.of_nat (length msg) in
  let zeros := Z.to_nat ((55 - len) mod 64) in
  msg ++ [128] ++ repeat 0 zeros ++ le_bytes 8 (Z.land (len * 8) 0xffffffffffffffff).

Fixpoint words_of_bytes (n : nat) (bs : list Z) : list Z :=
  match n with
  | O => []
  | S n' =>
      match bs with
      | b0 :: b1 :: b2 :: b3 :: rest =>
          (b0 + Z.shiftl b1 8 + Z.shiftl b2 16 + Z.shiftl b3 24)
            :: words_of_bytes n' rest
      | _ => []
      end
  end.

Record state := State { sa : Z; sb : Z; sc : Z; sd : Z }.

Definition init : state :=
  State 0x67452301 0xefcdab89 0x98badcfe 0x10325476.

Definition step (m : list Z) (st : state) (i : nat) : state :=
  let '(State a b c d) := st in
  let iz := Z.of_nat i in
  let '(f, g) :=
    if iz <? 16 then (Z.lor (Z.land b c) (Z.land (Z.lxor b 0xffffffff) d), iz)
    else if iz <? 32 then
      (Z.lor (Z.land d b) (Z.land (Z.lxor d 0xffffffff) c), (5 * iz + 1) mod 16)
    else if iz <? 48 then (Z.lxor (Z.lxor b c) d, (3 * iz + 5) mod 16)
    else (Z.lxor c (Z.lor b (Z.lxor d 0xffffffff)), (7 * iz) mod 16) in
  let f' := mask32 (f + a + nth i sines 0 + nth (Z.to_nat g) m 0) in
  State d (mask32 (b + rotl32 f' (nth i shifts 0))) b c.

Definition block (st : state) (m : list Z) : state :=
  let '(State a b c d) := fold_left (step m) (seq 0 64) st in
  State (mask32 (sa st + a)) (mask32 (sb st + b))
        (mask32 (sc st + c)) (mask32 (sd st + d)).

(** The padded message, sixty-four bytes at a time. *)
Fixpoint blocks (n : nat) (st : state) (bs : list Z) : state :=
  match n with
  | O => st
  | S n' => blocks n' (block st (words_of_bytes 16 (firstn 64 bs))) (skipn 64 bs)
  end.

Definition digest (msg : list Z) : list Z :=
  let p := pad msg in
  let '(State a b c d) := blocks (length p / 64) init p in
  le_bytes 4 a ++ le_bytes 4 b ++ le_bytes 4 c ++ le_bytes 4 d.

Definition hex_byte (b : Z) : string :=
  String (Text.hex_char (Z.to_N (b / 16)))
    (Text.str1 (Text.hex_char (Z.to_N (b mod 16)))).

Fixpoint hex (bs : list Z) : string :=
  match bs with
  | [] => EmptyString
  | b :: rest => hex_byte b +:+ hex rest
  end.

(** [createHash('md5').update(s).digest('hex')] *)
Definition md5_hex (s : string) : string := hex (digest (bytes_of_string s)).

Definition is_hex_digit (c : ascii) : bool :=
  let n := N_of_ascii c in
  ((48 <=? n) && (n <=? 57) || (97 <=? n) && (n <=? 102))%N.

Fixpoint all_hex (s : string) : bool :=
  match s with
  | EmptyString => true
  | String c rest => is_hex_digit c && all_hex rest
  end.

End Md5.

(** ** JavaScript values *)

Module Js.

(** Integers and the non-finite doubles. *)
Inductive number := Int (z : Z) | NaN | PosInf | NegInf.

Abbreviation addr := nat (only parsing).

Inductive value :=
| VUndefined
| VNull
| VBool (b : bool)
| VNum (n : number)
| VStr (s : string)
| VRef (a : addr).

Inductive promise_state := Pending | Rejected (reason : string).

Abbreviation props := (list (string * value)) (only parsing).

(** The kinds of object the replacer and the reviver tell apart.  A plain
    object is the ordered list of its own enumerable string-keyed
    properties.  A function is opaque in the model, except for the
    placeholder the reviver builds ([placeholder_for] is then the [name]
    it closes over); an object whose [toJSON] property is a user function
    is therefore outside the model. *)
Inductive obj :=
| OObject (fields : props)
| OArray (elems : list value)
| OSet (elems : list value)
| OMap (entries : list (value * value))
| ODate (time : option Z)
| ORegExp (source flags : string)
| OError (name : value) (message : string) (stack : value)
| OFunction (name : string) (placeholder_for : option value)
| OPromise (st : promise_state).

Abbreviation heap := (list obj) (only parsing).

Definition alloc (h : heap) (o : obj) : heap * value := (h ++ [o], VRef (length h)).

Inductive error_class := EError | ETypeError | ERangeError | ESyntaxError.

(** What a [throw] carries: an [Error] instance (file-system errors also
    have a [code]), or any other value. *)
Inductive exn :=
| JsError (cls : error_class) (message : string) (code : option string)
| Thrown (v : value).

Inductive outcome (A : Type) :=
| Ok (a : A)
| Throw (e : exn).
Arguments Ok {A} a.
Arguments Throw {A} e.

Definition bind {A B} (m : outcome A) (k : A -> outcome B) : outcome B :=
  match m with
  | Ok a => k a
  | Throw e => Throw e
  end.

Notation "x <~ m ; k" := (bind m (fun x => k))
  (at level 20, m at level 100, k at level 200, only parsing).
Notation "' p <~ m ; k" := (bind m (fun x => let 'p := x in k))
  (at level 20, p pattern, m at level 100, k at level 200, only parsing).

#[global] Instance number_eq_dec : EqDecision number.
Proof. solve_decision. Defined.
#[global] Instance value_eq_dec : EqDecision value.
Proof. solve_decision. Defined.

Definition TypeError (msg : string) : exn := JsError ETypeError msg None.
Definition RangeError (msg : string) : exn := JsError ERangeError msg None.
Definition SyntaxError (msg : string) : exn := JsError ESyntaxError msg None.
Definition Error (msg : string) : exn := JsError EError msg None.

(** *** Ordinary objects: property order, [in], get and set *)

(** A canonical array index: the decimal form of an integer below
    [2^32 - 1].  Such keys are enumerated first, in ascending order. *)
Definition array_index (k : string) : option N :=
  match Json.read_natural k with
  | Some (n, EmptyString) => if (n <? 4294967295)%N then Some n else None
  | _ => None
  end.

Fixpoint has_key (k : string) (ps : props) : bool :=
  match ps with
  | [] => false
  | (k', _) :: rest => if String.eqb k k' then true else has_key k rest
  end.

Fixpoint get_prop (k : string) (ps : props) : value :=
  match ps with
  | [] => VUndefined
  | (k', v) :: rest => if String.eqb k k' then v else get_prop k rest
  end.

Fixpoint update_prop (k : string) (v : value) (ps : props) : props :=
  match ps with
  | [] => []
  | (k', v') :: rest =>
      if String.eqb k k' then (k', v) :: rest else (k', v') :: update_prop k v rest
  end.

Fixpoint insert_index (n : N) (k : string) (v : value) (ps : props) : props :=
  match ps with
  | [] => [(k, v)]
  | (k', v') :: rest =>
      match array_index k' with
      | Some m => if (m <? n)%N then (k', v') :: insert_index n k v rest
                  else (k, v) :: ps
      | None => (k, v) :: ps
      end
  end.

(** [o[k] = v] on an ordinary object. *)
Definition set_prop (ps : props) (k : string) (v : value) : props :=
  if has_key k ps then update_prop k v ps
  else match array_index k with
       | Some n => insert_index n k v ps
       | None => ps ++ [(k, v)]
       end.

Fixpoint delete_prop (k : string) (ps : props) : props :=
  match ps with
  | [] => []
  | (k', v') :: rest =>
      if String.eqb k k' then rest else (k', v') :: delete_prop k rest
  end.

(** *** Dates: [toISOString] and the one format it writes *)

Definition pad_left (width : nat) (s : string) : string :=
  Text.join EmptyString (repeat "0" (width - String.length s)) +:+ s.

Definition civil_from_days (z0 : Z) : Z * Z * Z :=
  let z := z0 + 719468 in
  let era := z / 146097 in
  let doe := z - era * 146097 in
  let yoe := (doe - doe / 1460 + doe / 36524 - doe / 146096) / 365 in
  let doy := doe - (365 * yoe + yoe / 4 - yoe / 100) in
  let mp := (5 * doy + 2) / 153 in
  let d := doy - (153 * mp + 2) / 5 + 1 in
  let m := if mp <? 10 then mp + 3 else mp - 9 in
  (yoe + era * 400 + (if m <=? 2 then 1 else 0), m, d).

Definition days_from_civil (y0 m d : Z) : Z :=
  let y := if m <=? 2 then y0 - 1 else y0 in
  let era := y / 400 in
  let yoe := y - era * 400 in
  let doy := (153 * (if 2 <? m then m - 3 else m + 9) + 2) / 5 + d - 1 in
  let doe := yoe * 365 + yoe / 4 - yoe / 100 + doy in
  era * 146097 + doe - 719468.

Definition toISOString (t : Z) : string :=
  let '(y, m, d) := civil_from_days (t / 86400000) in
  let ms := t mod 86400000 in
  let two z := pad_left 2 (Text.Z_to_string z) in
  let year :=
    if (0 <=? y) && (y <=? 9999) then pad_left 4 (Text.Z_to_string y)
    else (if y <? 0 then "-" else "+") +:+ pad_left 6 (Text.Z_to_string (Z.abs y)) in
  year +:+ "-" +:+ two m +:+ "-" +:+ two d +:+ "T"
    +:+ two (ms / 3600000) +:+ ":" +:+ two ((ms / 60000) mod 60) +:+ ":"
    +:+ two ((ms / 1000) mod 60) +:+ "." +:+ pad_left 3 (Text.Z_to_string (ms mod 1000))
    +:+ "Z".

Definition time_in_range (t : Z) : bool :=
  (-8640000000000000 <=? t) && (t <=? 8640000000000000).

Fixpoint all_digits (s : string) : bool :=
  match s with
  | EmptyString => true
  | String c rest =>
      match Json.digit_val c with Some _ => all_digits rest | None => false end
  end.

Definition digits_value (s : string) : Z := Z.of_N (fst (Json.read_digits 0%N s)).

(** [Date.parse], on the format [YYYY-MM-DDTHH:mm:ss.sssZ] only: the
    other formats the engine accepts are read as an invalid date. *)
Definition Date_parse (s : string) : option Z :=
  let part i n := String.substring i n s in
  if (String.length s =? 24)%nat
     && all_digits (part 0 4 +:+ part 5 2 +:+ part 8 2 +:+ part 11 2
                      +:+ part 14 2 +:+ part 17 2 +:+ part 20 3)%nat
     && String.eqb (part 4 1 +:+ part 7 1 +:+ part 10 1 +:+ part 13 1
                      +:+ part 16 1 +:+ part 19 1 +:+ part 23 1)%nat "--T::.Z"
  then
    let y := digits_value (part 0 4)%nat in
    let m := digits_value (part 5 2)%nat in
    let d := digits_value (part 8 2)%nat in
    let hh := digits_value (part 11 2)%nat in
    let mm := digits_value (part 14 2)%nat in
    let ss := digits_value (part 17 2)%nat in
    let ms := digits_value (part 20 3)%nat in
    let t := days_from_civil y m d * 86400000 + hh * 3600000 + mm * 60000
             + ss * 1000 + ms in
    if (1 <=? m) && (m <=? 12) && (1 <=? d) && (hh <=? 23) && (mm <=? 59)
       && (ss <=? 59) && String.eqb (toISOString t) s
    then Some t else None
  else None.

End Js.

(** ** The codec: replacer, reviver and the builtins that call them *)

Module Codec.
Import Json Js.


(** [String(v)]; the string form of an object is not modelled beyond the
    default [[object Object]]. *)
Definition ToString (v : value) : string :=
  match v with
  | VUndefined => "undefined"
  | VNull => "null"
  | VBool true => "true"
  | VBool false => "false"
  | VNum (Int z) => Text.Z_to_string z
  | VNum NaN => "NaN"
  | VNum PosInf => "Infinity"
  | VNum NegInf => "-Infinity"
  | VStr s => s
  | VRef _ => "[object Object]"
  end.

Definition replacer := heap -> string -> value -> outcome (heap * value).
Definition reviver := heap -> string -> value -> outcome (heap * value).

(** [Array.from(map.entries())]: one fresh two-element array per entry. *)
Fixpoint alloc_entries (h : heap) (entries : list (value * value)) : heap * list value :=
  match entries with
  | [] => (h, [])
  | (k, v) :: rest =>
      let '(h1, entry) := alloc h (OArray [k; v]) in
      let '(h2, others) := alloc_entries h1 rest in
      (h2, entry :: others)
  end.

(** [safeJsonReplacer(key, value)].  The tests are on the kind of the
    object, so their order does not matter here.  The last lines of the
    source are kept as they are: [seen] is a set made by this very call. *)
Definition safeJsonReplacer : replacer := fun h key v =>
  match v with
  | VRef a =>
      match h !! a with
      | Some (OSet elems) =>
          let '(h1, arr) := alloc h (OArray elems) in
          Ok (alloc h1 (OObject [("__type", VStr "Set"); ("value", arr)]))
      | Some (OMap entries) =>
          let '(h1, pairs) := alloc_entries h entries in
          let '(h2, arr) := alloc h1 (OArray pairs) in
          Ok (alloc h2 (OObject [("__type", VStr "Map"); ("value", arr)]))
      | Some (ODate time) =>
          match time with
          | Some t =>
              Ok (alloc h (OObject [("__type", VStr "Date");
                                    ("value", VStr (toISOString t))]))
          | None => Throw (RangeError "Invalid time value")
          end
      | Some (OFunction name _) =>
          Ok (alloc h (OObject
                [("__type", VStr "Function");
                 ("name", VStr (if Text.is_empty name then "anonymous" else name))]))
      | Some (ORegExp source flags) =>
          Ok (alloc h (OObject [("__type", VStr "RegExp");
                                ("source", VStr source); ("flags", VStr flags)]))
      | Some (OError name message stack) =>
          Ok (alloc h (OObject [("__type", VStr "Error"); ("name", name);
                                ("message", VStr message); ("stack", stack)]))
      | Some (OPromise _) =>
          Ok (alloc h (OObject [("__type", VStr "Promise");
                                ("status", VStr "pending")]))
      | Some (OObject _) | Some (OArray _) =>
          let seen : list addr := [] in
          if bool_decide (a ∈ seen) then Ok (h, VStr "[Circular Reference]")
          else Ok (h, v)
      | None => Ok (h, v)
      end
  | _ => Ok (h, v)
  end.

(** *** [JSON.stringify] *)

Definition circular : exn := TypeError "Converting circular structure to JSON".
Definition overflow : exn := RangeError "Maximum call stack size exceeded".

(** Step 2 of [SerializeJSONProperty]: a [toJSON] method runs before the
    replacer does.  [Date.prototype.toJSON] is the one the model has. *)
Definition toJSON_step (h : heap) (v : value) : value :=
  match v with
  | VRef a =>
      match h !! a with
      | Some (ODate (Some t)) => VStr (toISOString t)
      | Some (ODate None) => VNull
      | _ => v
      end
  | _ => v
  end.

Definition own_enumerable (o : obj) : props :=
  match o with
  | OObject fields => fields
  | _ => []
  end.

Section Walk.
Variable rec : string -> value -> outcome (option json).

(** [SerializeJSONArray]: an element that has no JSON form is [null]. *)
Fixpoint ser_items (i : nat) (vs : list value) : outcome (list json) :=
  match vs with
  | [] => Ok []
  | v :: rest =>
      j <~ rec (Text.nat_to_string i) v;
      js <~ ser_items (S i) rest;
      Ok (default JNull j :: js)
  end.

(** [SerializeJSONObject]: a property that has no JSON form is left out. *)
Fixpoint ser_members (ps : props) : outcome (list (string * json)) :=
  match ps with
  | [] => Ok []
  | (k, v) :: rest =>
      j <~ rec k v;
      js <~ ser_members rest;
      Ok (match j with Some x => (k, x) :: js | None => js end)
  end.
End Walk.

(** [SerializeJSONProperty], from the value the holder has under [key].
    [stack] is the builtin's own list of the objects being written;
    [limit] is the number of nested calls the engine still allows. *)
Fixpoint serialize (limit : nat) (rep : option replacer) (h : heap)
         (stack : list addr) (key : string) (v : value) : outcome (option json) :=
  match limit with
  | O => Throw overflow
  | S limit' =>
      let v1 := toJSON_step h v in
      '(h2, v2) <~ match rep with Some r => r h key v1 | None => Ok (h, v1) end;
      match v2 with
      | VUndefined => Ok None
      | VNull => Ok (Some JNull)
      | VBool b => Ok (Some (JBool b))
      | VNum (Int z) => Ok (Some (JNum z))
      | VNum _ => Ok (Some JNull)
      | VStr s => Ok (Some (JStr s))
      | VRef a =>
          match h2 !! a with
          | None => Ok None
          | Some (OFunction _ _) => Ok None
          | Some (OArray elems) =>
              if bool_decide (a ∈ stack) then Throw circular
              else
                items <~ ser_items (serialize limit' rep h2 (a :: stack)) 0 elems;
                Ok (Some (JArr items))
          | Some o =>
              if bool_decide (a ∈ stack) then Throw circular
              else
                members <~ ser_members (serialize limit' rep h2 (a :: stack))
                                      (own_enumerable o);
                Ok (Some (JObj members))
          end
      end
  end.

(** [JSON.stringify(v, rep, gap)]: a string, or [undefined] ([None]). *)
Definition JSON_stringify (limit : nat) (rep : option replacer) (gap : string)
           (h : heap) (v : value) : outcome (option string) :=
  j <~ serialize limit rep h [] EmptyString v;
  Ok (render gap EmptyString <$> j).

(** *** The constructors the reviver calls *)

Definition is_continuation (c : ascii) : bool :=
  let n := N_of_ascii c in ((128 <=? n) && (n <? 192))%N.

Fixpoint chars_from (s : string) : string * list string :=
  match s with
  | EmptyString => (EmptyString, [])
  | String c rest =>
      let '(pending, chars) := chars_from rest in
      if is_continuation c then (String c pending, chars)
      else (EmptyString, String c pending :: chars)
  end.

(** The code points of a string, each as a string. *)
Definition code_points (s : string) : list string :=
  let '(pending, chars) := chars_from s in
  if Text.is_empty pending then chars else pending :: chars.

Definition not_iterable : exn := TypeError "object is not iterable".

(** The values an iteration of [v] yields. *)
Definition iterate (h : heap) (v : value) : outcome (heap * list value) :=
  match v with
  | VStr s => Ok (h, VStr <$> code_points s)
  | VRef a =>
      match h !! a with
      | Some (OArray elems) => Ok (h, elems)
      | Some (OSet elems) => Ok (h, elems)
      | Some (OMap entries) => Ok (alloc_entries h entries)
      | _ => Throw not_iterable
      end
  | _ => Throw not_iterable
  end.

(** [set.add(x)]: by [SameValueZero], which on the model's values is
    equality. *)
Definition set_add (elems : list value) (x : value) : list value :=
  if bool_decide (x ∈ elems) then elems else elems ++ [x].

Definition new_Set (h : heap) (v : value) : outcome (heap * value) :=
  match v with
  | VUndefined | VNull => Ok (alloc h (OSet []))
  | _ =>
      '(h1, items) <~ iterate h v;
      Ok (alloc h1 (OSet (fold_left set_add items [])))
  end.

Fixpoint map_set (entries : list (value * value)) (k v : value) : list (value * value) :=
  match entries with
  | [] => [(k, v)]
  | (k', v') :: rest =>
      if bool_decide (k = k') then (k', v) :: rest else (k', v') :: map_set rest k v
  end.

(** [item[i]] for [i] in [0], [1]. *)
Definition entry_field (h : heap) (a : addr) (i : nat) : value :=
  match h !! a with
  | Some (OArray elems) => default VUndefined (elems !! i)
  | Some (OObject fields) => get_prop (Text.nat_to_string i) fields
  | _ => VUndefined
  end.

Fixpoint add_entries (h : heap) (items : list value) (acc : list (value * value))
  : outcome (list (value * value)) :=
  match items with
  | [] => Ok acc
  | VRef a :: rest =>
      add_entries h rest (map_set acc (entry_field h a 0) (entry_field h a 1))
  | _ :: _ => Throw (TypeError "Iterator value is not an entry object")
  end.

Definition new_Map (h : heap) (v : value) : outcome (heap * value) :=
  match v with
  | VUndefined | VNull => Ok (alloc h (OMap []))
  | _ =>
      '(h1, items) <~ iterate h v;
      entries <~ add_entries h1 items [];
      Ok (alloc h1 (OMap entries))
  end.

(** [new Date(v)] for one argument: the time value, [None] when it is
    [NaN].  An object other than a date is read as an invalid date. *)
Definition new_Date (h : heap) (v : value) : heap * value :=
  let in_range t := if time_in_range t then Some t else None in
  let time :=
    match v with
    | VUndefined => None
    | VNull => Some 0
    | VBool b => Some (if b then 1 else 0)
    | VNum (Int z) => in_range z
    | VNum _ => None
    | VStr s => Date_parse s
    | VRef a => match h !! a with Some (ODate t) => t | _ => None end
    end in
  alloc h (ODate time).

Definition flag_letters : list ascii :=
  ["d"; "g"; "i"; "m"; "s"; "u"; "v"; "y"]%char.

(** The flags in the order the [flags] getter gives them, when every
    letter is a flag, none repeats and [u] and [v] do not meet. *)
Definition RegExp_flags (f : string) : option string :=
  let cs := list_ascii_of_string f in
  if forallb (fun c => bool_decide (c ∈ flag_letters)) cs
     && bool_decide (NoDup cs)
     && negb (bool_decide ("u"%char ∈ cs) && bool_decide ("v"%char ∈ cs))
  then Some (string_of_list_ascii (filter (fun c => c ∈ cs) flag_letters))
  else None.

(** [new RegExp(source, flags)].  The syntax of the pattern is not
    modelled: only the flags can be refused here. *)
Definition new_RegExp (h : heap) (source flags : value) : outcome (heap * value) :=
  let src :=
    match source with
    | VUndefined => "(?:)"
    | _ => if Text.is_empty (ToString source) then "(?:)" else ToString source
    end in
  let fl := match flags with VUndefined => EmptyString | _ => ToString flags end in
  match RegExp_flags fl with
  | Some f => Ok (alloc h (ORegExp src f))
  | None => Throw (SyntaxError "Invalid flags supplied to RegExp constructor")
  end.

(** [safeJsonReviver(key, value)] *)
Definition safeJsonReviver : reviver := fun h key v =>
  match v with
  | VRef a =>
      match h !! a with
      | Some (OObject fields) =>
          if has_key "__type" fields then
            match get_prop "__type" fields with
            | VStr "Set" => new_Set h (get_prop "value" fields)
            | VStr "Map" => new_Map h (get_prop "value" fields)
            | VStr "Date" => Ok (new_Date h (get_prop "value" fields))
            | VStr "RegExp" =>
                new_RegExp h (get_prop "source" fields) (get_prop "flags" fields)
            | VStr "Error" =>
                let message :=
                  match get_prop "message" fields with
                  | VUndefined => EmptyString
                  | m => ToString m
                  end in
                Ok (alloc h (OError (get_prop "name" fields) message
                                    (get_prop "stack" fields)))
            | VStr "Function" =>
                Ok (alloc h (OFunction EmptyString (Some (get_prop "name" fields))))
            | VStr "Promise" =>
                Ok (alloc h (OPromise (Rejected "Cannot restore Promise object")))
            | _ => Ok (h, v)
            end
          else Ok (h, v)
      | _ => Ok (h, v)
      end
  | _ => Ok (h, v)
  end.

(** *** [JSON.parse] *)

Definition apply_reviver (rev : option reviver) (h : heap) (key : string) (v : value)
  : outcome (heap * value) :=
  match rev with
  | Some r => r h key v
  | None => Ok (h, v)
  end.

(** The object a list of parsed members stands for: a repeated key keeps
    its first place and its last value; a member whose value became
    [undefined] is deleted. *)
Definition build_fields (members : list (string * value)) : props :=
  filter (fun kv => kv.2 <> VUndefined)
         (fold_left (fun acc kv => set_prop acc kv.1 kv.2) members []).

Section Revive.
Variable rec : heap -> string -> json -> outcome (heap * value).

(** The elements of a parsed array, revived from left to right. *)
Fixpoint intern_items (h : heap) (i : nat) (l : list json) : outcome (heap * list value) :=
  match l with
  | [] => Ok (h, [])
  | x :: rest =>
      '(h1, v) <~ rec h (Text.nat_to_string i) x;
      '(h2, vs) <~ intern_items h1 (S i) rest;
      Ok (h2, v :: vs)
  end.

(** The members of a parsed object.  A member that a later one of the same
    key overrides never reaches the reviver. *)
Fixpoint intern_members (h : heap) (l : list (string * json))
  : outcome (heap * list (string * value)) :=
  match l with
  | [] => Ok (h, [])
  | (k, x) :: rest =>
      if bool_decide (k ∈ rest.*1) then intern_members h rest
      else
        '(h1, v) <~ rec h k x;
        '(h2, kvs) <~ intern_members h1 rest;
        Ok (h2, (k, v) :: kvs)
  end.
End Revive.

(** [InternalizeJSONProperty], bottom-up. *)
Fixpoint internalize (rev : option reviver) (h : heap) (key : string) (j : json)
  : outcome (heap * value) :=
  match j with
  | JNull => apply_reviver rev h key VNull
  | JBool b => apply_reviver rev h key (VBool b)
  | JNum z => apply_reviver rev h key (VNum (Int z))
  | JStr s => apply_reviver rev h key (VStr s)
  | JArr items =>
      '(h1, vs) <~ intern_items (internalize rev) h 0 items;
      let '(h2, arr) := alloc h1 (OArray vs) in
      apply_reviver rev h2 key arr
  | JObj members =>
      '(h1, kvs) <~ intern_members (internalize rev) h members;
      let '(h2, o) :=
        alloc h1 (OObject (build_fields
                             ((fun kx => (kx.1, get_prop kx.1 kvs)) <$> members))) in
      apply_reviver rev h2 key o
  end.

(** [JSON.parse(text, rev)] *)
Definition JSON_parse (rev : option reviver) (h : heap) (text : string)
  : outcome (heap * value) :=
  match Json.read text with
  | Some j => internalize rev h EmptyString j
  | None => Throw (SyntaxError "Unexpected token in JSON")
  end.

(** *** [trySerialize] and [generateHash] *)

Record SerializationResult := {
  success : bool;
  data : option string;
  error : option string
}.

(** [error instanceof Error ? error.message : 'Unknown serialization error'] *)
Definition failure_message (e : exn) : string :=
  match e with
  | JsError _ message _ => message
  | Thrown _ => "Unknown serialization error"
  end.

(** [trySerialize(data)].  [JSON.parse] is handed what [JSON.stringify]
    returned; [undefined] reaches it as the text [undefined]. *)
Definition trySerialize (limit : nat) (h : heap) (v : value) : SerializationResult :=
  match JSON_stringify limit (Some safeJsonReplacer) EmptyString h v with
  | Throw e => {| success := false; data := None; error := Some (failure_message e) |}
  | Ok serialized =>
      match JSON_parse (Some safeJsonReviver) h (default "undefined" serialized) with
      | Throw e =>
          {| success := false; data := None; error := Some (failure_message e) |}
      | Ok _ => {| success := true; data := serialized; error := None |}
      end
  end.

(** The canonical encoding of an argument list: what [generateHash]
    hands to the hash. *)
Definition canonical (limit : nat) (h : heap) (args : list value)
  : outcome (option string) :=
  JSON_stringify limit (Some safeJsonReplacer) EmptyString
                 (h ++ [OArray args]) (VRef (length h)).

(** [generateHash(args)]: [args] is the fresh array of the rest
    parameter. *)
Definition generateHash (limit : nat) (h : heap) (args : list value) : outcome string :=
  let '(h1, arr) := alloc h (OArray args) in
  serialized <~ JSON_stringify limit (Some safeJsonReplacer) EmptyString h1 arr;
  match serialized with
  | Some argsStr => Ok (Md5.md5_hex argsStr)
  | None => Throw (TypeError "The data argument must be of type string")
  end.

End Codec.

(** ** Values as trees: what a round trip is to preserve *)

Module Tree.
Import Json Js Codec.

(** The content of a value that has no cycle, apart from the identity of
    its objects. *)
#[local] Unset Elimination Schemes.
Inductive tree : Type :=
| TNull
| TBool (b : bool)
| TNum (z : Z)
| TStr (s : string)
| TArr (items : list tree)
| TObj (fields : list (string * tree))
| TSet (elems : list tree)
| TMap (entries : list (tree * tree))
| TRegExp (source flags : string)
| TError (name : option string) (message : string) (stack : option string).
#[local] Set Elimination Schemes.

Fixpoint all2 {A B : Type} (p : A -> B -> bool) (l1 : list A) (l2 : list B) : bool :=
  match l1, l2 with
  | [], [] => true
  | x :: l1', y :: l2' => p x y && all2 p l1' l2'
  | _, _ => false
  end.

Definition optional (o : option string) : value :=
  match o with
  | Some s => VStr s
  | None => VUndefined
  end.

(** [denotes h t v]: in the heap [h], the value [v] has the content [t]. *)
Fixpoint denotes (h : heap) (t : tree) (v : value) {struct t} : bool :=
  match t, v with
  | TNull, VNull => true
  | TBool b, VBool b' => Bool.eqb b b'
  | TNum z, VNum (Int z') => Z.eqb z z'
  | TStr s, VStr s' => String.eqb s s'
  | TArr items, VRef a =>
      match h !! a with
      | Some (OArray vs) => all2 (denotes h) items vs
      | _ => false
      end
  | TObj fields, VRef a =>
      match h !! a with
      | Some (OObject ps) =>
          all2 (fun kt kv => String.eqb (fst kt) (fst kv) && denotes h (snd kt) (snd kv))
               fields ps
      | _ => false
      end
  | TSet elems, VRef a =>
      match h !! a with
      | Some (OSet vs) => all2 (denotes h) elems vs
      | _ => false
      end
  | TMap entries, VRef a =>
      match h !! a with
      | Some (OMap es) =>
          all2 (fun tt vv => denotes h (fst tt) (fst vv) && denotes h (snd tt) (snd vv))
               entries es
      | _ => false
      end
  | TRegExp source flags, VRef a =>
      match h !! a with
      | Some (ORegExp source' flags') =>
          String.eqb source source' && String.eqb flags flags'
      | _ => false
      end
  | TError name message stack, VRef a =>
      match h !! a with
      | Some (OError name' message' stack') =>
          bool_decide (name' = optional name) && String.eqb message message'
          && bool_decide (stack' = optional stack)
      | _ => false
      end
  | _, _ => false
  end.

Definition present (k : string) (o : option string) : list (string * json) :=
  match o with
  | Some s => [(k, JStr s)]
  | None => []
  end.

(** The document the codec is to write for a value: the native kinds as
    they are, the others in their envelope. *)
Fixpoint wire (t : tree) : json :=
  match t with
  | TNull => JNull
  | TBool b => JBool b
  | TNum z => JNum z
  | TStr s => JStr s
  | TArr items => JArr (List.map wire items)
  | TObj fields => JObj (List.map (fun kt => (fst kt, wire (snd kt))) fields)
  | TSet elems =>
      JObj [("__type", JStr "Set"); ("value", JArr (List.map wire elems))]
  | TMap entries =>
      JObj [("__type", JStr "Map");
            ("value", JArr (List.map (fun kv => JArr [wire (fst kv); wire (snd kv)])
                                     entries))]
  | TRegExp source flags =>
      JObj [("__type", JStr "RegExp"); ("source", JStr source); ("flags", JStr flags)]
  | TError name message stack =>
      JObj ([("__type", JStr "Error")] ++ present "name" name
              ++ [("message", JStr message)] ++ present "stack" stack)
  end.

(** The stack frames it takes to write the value: an envelope is one
    object more, and the entries of a map are arrays. *)
Fixpoint frames (t : tree) : nat :=
  match t with
  | TArr items => S (list_max (List.map frames items))
  | TObj fields => S (list_max (List.map (fun kt => frames (snd kt)) fields))
  | TSet elems => S (S (list_max (List.map frames elems)))
  | TMap entries =>
      S (S (S (list_max (List.map (fun kv => Nat.max (frames (fst kv)) (frames (snd kv)))
                                  entries))))
  | TRegExp _ _ | TError _ _ _ => 2
  | _ => 1
  end.

(** The primitive value of a leaf. *)
Definition leaf_value (t : tree) : option value :=
  match t with
  | TNull => Some VNull
  | TBool b => Some (VBool b)
  | TNum z => Some (VNum (Int z))
  | TStr s => Some (VStr s)
  | _ => None
  end.

(** [k] can be added after the keys [seen] and stay last in the order of
    enumeration: it is new, and it is no array index unless all of [seen]
    are smaller ones. *)
Definition stays_last (seen : list string) (k : string) : bool :=
  negb (bool_decide (k ∈ seen)) &&
  match array_index k with
  | None => true
  | Some n =>
      forallb (fun k' => match array_index k' with
                         | Some m => (m <? n)%N
                         | None => false
                         end) seen
  end.

Fixpoint keys_in_order (seen ks : list string) : bool :=
  match ks with
  | [] => true
  | k :: rest => stays_last seen k && keys_in_order (seen ++ [k]) rest
  end.


End Tree.

(** ** The file system, as far as the class uses it *)

Module Fs.
Import Js.

(** A path names a regular file or a directory. *)
Inductive node := File (content : string) | Dir.

Abbreviation disk := (gmap string node).

Definition errno (code : string) : exn := JsError EError code (Some code).

(** [fs.readFile(path, 'utf-8')] and [readFileSync] *)
Definition readFile (d : disk) (path : string) : outcome string :=
  match d !! path with
  | None => Throw (errno "ENOENT")
  | Some Dir => Throw (errno "EISDIR")
  | Some (File content) => Ok content
  end.

(** [fs.writeFile(path, data)], once it has completed *)
Definition writeFile (d : disk) (path data : string) : outcome disk :=
  match d !! path with
  | Some Dir => Throw (errno "EISDIR")
  | _ => Ok (<[path := File data]> d)
  end.

(** [fs.rename(src, dst)] and [renameSync]: one atomic step *)
Definition rename (d : disk) (src dst : string) : outcome disk :=
  match d !! src with
  | None => Throw (errno "ENOENT")
  | Some n =>
      match n, d !! dst with
      | File _, Some Dir => Throw (errno "EISDIR")
      | Dir, Some (File _) => Throw (errno "ENOTDIR")
      | _, _ => Ok (<[dst := n]> (delete src d))
      end
  end.



End Fs.

(** ** The class *)

Module Beatbox.
Import Json Js Codec.

Inductive Mode :=
| BYPASS
| RECORD
| PLAYBACK
| Unlisted (raw : string).  (* what only an untyped caller can pass *)

Definition Mode_text (m : Mode) : string :=
  match m with
  | BYPASS => "BYPASS"
  | RECORD => "RECORD"
  | PLAYBACK => "PLAYBACK"
  | Unlisted raw => raw
  end.

(** The value of [this.storage].  The object literal [{}] and a parsed
    plain object are owned by the instance alone, so their fields are
    kept here rather than in the heap.  [JSON.parse] may return something
    else; [extra] then holds the properties later assigned to it. *)
Inductive StorageData :=
| Mapping (fields : props)
| Foreign (v : value) (extra : props).

Record t := Make {
  storage : StorageData;
  storageFile : string;
  mode : Mode;
  initialized : bool
}.

(** [new Beatbox(storageFile)] *)
Definition create (storageFile : string) : t :=
  {| storage := Mapping []; storageFile := storageFile; mode := BYPASS;
     initialized := false |}.

Definition setMode (m : Mode) (b : t) : t :=
  {| storage := storage b; storageFile := storageFile b; mode := m;
     initialized := initialized b |}.

Definition with_storage (s : StorageData) (init : bool) (b : t) : t :=
  {| storage := s; storageFile := storageFile b; mode := mode b;
     initialized := init |}.

(** What the instance can observe of the outside, in the order it
    happened. *)
Inductive event :=
| Invoked (args : list value)
| ReadFile (path : string)
| WriteFile (path data : string)
| Rename (src dst : string)
| Warn (msg : string)
| LogError (msg : string).

Record world := World {
  heap_of : heap;
  disk_of : Fs.disk;
  now : Z;             (* [Date.now()] *)
  limit : nat;         (* frames the engine's stack has room for *)
  events : list event
}.

Definition log (e : event) (w : world) : world :=
  {| heap_of := heap_of w; disk_of := disk_of w; now := now w; limit := limit w;
     events := events w ++ [e] |}.

Definition with_heap (h : heap) (w : world) : world :=
  {| heap_of := h; disk_of := disk_of w; now := now w; limit := limit w;
     events := events w |}.

Definition with_disk (d : Fs.disk) (w : world) : world :=
  {| heap_of := heap_of w; disk_of := d; now := now w; limit := limit w;
     events := events w |}.

(** *** [this.storage]: [in], read and assignment (strict mode) *)

Definition storage_of (h : heap) (v : value) : StorageData :=
  match v with
  | VRef a =>
      match h !! a with
      | Some (OObject fields) => Mapping fields
      | _ => Foreign v []
      end
  | _ => Foreign v []
  end.

(** [hash in this.storage].  The keys asked for are MD5 digests, which no
    prototype and no array defines, so own properties decide. *)
Definition storage_has (s : StorageData) (k : string) : outcome bool :=
  match s with
  | Mapping fields => Ok (has_key k fields)
  | Foreign (VRef _) extra => Ok (has_key k extra)
  | Foreign _ _ => Throw (TypeError "Cannot use 'in' operator to search for a key")
  end.

(** [this.storage[hash]] *)
Definition storage_get (s : StorageData) (k : string) : outcome value :=
  match s with
  | Mapping fields => Ok (get_prop k fields)
  | Foreign (VRef _) extra => Ok (get_prop k extra)
  | Foreign VUndefined _ | Foreign VNull _ =>
      Throw (TypeError "Cannot read properties of undefined or null")
  | Foreign _ _ => Ok VUndefined
  end.

(** [this.storage[hash] = result] *)
Definition storage_set (s : StorageData) (k : string) (v : value) : outcome StorageData :=
  match s with
  | Mapping fields => Ok (Mapping (set_prop fields k v))
  | Foreign (VRef a) extra => Ok (Foreign (VRef a) (set_prop extra k v))
  | Foreign _ _ => Throw (TypeError "Cannot create property on a primitive value")
  end.

(** [this.storage] as a value that [JSON.stringify] can walk. *)
Definition storage_value (h : heap) (s : StorageData) : heap * value :=
  match s with
  | Mapping fields => alloc h (OObject fields)
  | Foreign v _ => (h, v)
  end.

(** *** [loadStorage] and [saveStorage] *)

Definition error_code (e : exn) : option string :=
  match e with
  | JsError _ _ code => code
  | Thrown _ => None
  end.

Definition is_SyntaxError (e : exn) : bool :=
  match e with
  | JsError ESyntaxError _ _ => true
  | _ => false
  end.

Definition describe (e : exn) : string :=
  match e with
  | JsError _ message _ => message
  | Thrown v => ToString v
  end.

Definition backup_path (file : string) (time : Z) : string :=
  file +:+ ".backup." +:+ Text.Z_to_string time.

Definition corrupted_notice (backup : string) : string :=
  "Storage file was corrupted. Backed up to " +:+ backup
    +:+ " and created new storage.".

(** The [try] block that [loadStorage] and the synchronous play-back share:
    read the file and parse it. *)
Definition read_storage (w : world) (b : t) : outcome (heap * value) :=
  data <~ Fs.readFile (disk_of w) (storageFile b);
  JSON_parse (Some safeJsonReviver) (heap_of w) data.

(** The two first arms of the [catch] block, which the two copies share
    as well; [None] when neither applies. *)
Definition recover (e : exn) (w : world) (b : t) : option (world * t * outcome unit) :=
  if bool_decide (error_code e = Some "ENOENT") then
    Some (w, with_storage (Mapping []) true b, Ok tt)
  else if is_SyntaxError e then
    let backup := backup_path (storageFile b) (now w) in
    let w1 := log (Rename (storageFile b) backup) w in
    match Fs.rename (disk_of w1) (storageFile b) backup with
    | Ok d => Some (log (Warn (corrupted_notice backup)) (with_disk d w1),
                    with_storage (Mapping []) true b, Ok tt)
    | Throw e' => Some (w1, b, Throw e')
    end
  else None.

(** The body of [loadStorage] after its guard. *)
Definition load_from_file (w : world) (b : t) : world * t * outcome unit :=
  let w1 := log (ReadFile (storageFile b)) w in
  match read_storage w1 b with
  | Ok (h, v) => (with_heap h w1, with_storage (storage_of h v) true b, Ok tt)
  | Throw e =>
      match recover e w1 b with
      | Some r => r
      | None => (w1, b, Throw e)
      end
  end.

(** [loadStorage()] *)
Definition loadStorage (w : world) (b : t) : world * t * outcome unit :=
  if initialized b then (w, b, Ok tt) else load_from_file w b.

Definition tempFile (b : t) : string := storageFile b +:+ ".tmp".

(** [this.trySerialize(this.storage)] *)
Definition encode_storage (w : world) (b : t) : SerializationResult :=
  let '(h, v) := storage_value (heap_of w) (storage b) in
  trySerialize (limit w) h v.

(** [saveStorage()]: it never throws. *)
Definition saveStorage (w : world) (b : t) : world :=
  let r := encode_storage w b in
  if negb (success r) then
    log (Warn ("Failed to save storage: " +:+ default "undefined" (error r))) w
  else
    match data r with
    | None => log (LogError "Failed to save storage file:") w
    | Some text =>
        let w1 := log (WriteFile (tempFile b) text) w in
        match Fs.writeFile (disk_of w1) (tempFile b) text with
        | Throw e => log (LogError ("Failed to save storage file: " +:+ describe e)) w1
        | Ok d1 =>
            let w2 := log (Rename (tempFile b) (storageFile b)) (with_disk d1 w1) in
            match Fs.rename (disk_of w2) (tempFile b) (storageFile b) with
            | Throw e =>
                log (LogError ("Failed to save storage file: " +:+ describe e)) w2
            | Ok d2 => with_disk d2 w2
            end
        end
    end.

(** *** [wrap] *)

(** The wrapped function is opaque: it is given the arguments and may
    read and change the heap. *)
Definition body := list value -> heap -> heap * outcome value.

Record function := { isAsync : bool; call : body }.

Definition invoke (fn : body) (args : list value) (w : world) : world * outcome value :=
  let '(h, r) := fn args (heap_of w) in
  (with_heap h (log (Invoked args) w), r).

(** The continuation a synchronous recording leaves behind:
    [this.loadStorage().then(...).catch(console.error)].  The guard of
    [loadStorage] has been evaluated by then; [must_load] is its answer. *)
Record job := { must_load : bool; job_hash : string; job_result : value }.

Record reply := Reply {
  world_after : world;
  self_after : t;
  returned : outcome value;
  deferred : option job
}.

(** [throw new Error(`No recorded result found for arguments: ...`)] *)
Definition not_found (w : world) (args : list value) : outcome value :=
  let '(h, arr) := alloc (heap_of w) (OArray args) in
  text <~ JSON_stringify (limit w) None "  " h arr;
  Throw (Error ("No recorded result found for arguments: "
                  +:+ default "undefined" text)).

Definition invalid_mode (m : Mode) : outcome value :=
  Throw (Error ("Invalid mode: " +:+ Mode_text m)).

(** The statements both recording paths run once the result is there. *)
Definition record (hash : string) (result : value) (w : world) (b : t)
  : world * t * outcome unit :=
  if success (trySerialize (limit w) (heap_of w) result) then
    match storage_set (storage b) hash result with
    | Ok s =>
        let b' := with_storage s (initialized b) b in
        (saveStorage w b', b', Ok tt)
    | Throw e => (w, b, Throw e)
    end
  else (log (Warn "Failed to record non-serializable result") w, b, Ok tt).

(** [wrapper], the asynchronous path; every [await] has completed when
    the next statement runs. *)
Definition wrapper (fn : body) (args : list value) (w : world) (b : t) : reply :=
  let '(w1, b1, loaded) := loadStorage w b in
  match loaded with
  | Throw e => Reply w1 b1 (Throw e) None
  | Ok _ =>
      match generateHash (limit w1) (heap_of w1) args with
      | Throw e => Reply w1 b1 (Throw e) None
      | Ok hash =>
          match mode b1 with
          | BYPASS =>
              let '(w2, r) := invoke fn args w1 in Reply w2 b1 r None
          | RECORD =>
              let '(w2, r) := invoke fn args w1 in
              match r with
              | Throw e => Reply w2 b1 (Throw e) None
              | Ok result =>
                  let '(w3, b3, stored) := record hash result w2 b1 in
                  match stored with
                  | Ok _ => Reply w3 b3 (Ok result) None
                  | Throw e => Reply w3 b3 (Throw e) None
                  end
              end
          | PLAYBACK =>
              match storage_has (storage b1) hash with
              | Throw e => Reply w1 b1 (Throw e) None
              | Ok true => Reply w1 b1 (storage_get (storage b1) hash) None
              | Ok false => Reply w1 b1 (not_found w1 args) None
              end
          | Unlisted _ => Reply w1 b1 (invalid_mode (mode b1)) None
          end
      end
  end.

(** The copy of the loading code in the synchronous play-back: no guard,
    and no last [else]. *)
Definition load_for_playback (w : world) (b : t) : world * t * outcome unit :=
  let w1 := log (ReadFile (storageFile b)) w in
  match read_storage w1 b with
  | Ok (h, v) => (with_heap h w1, with_storage (storage_of h v) true b, Ok tt)
  | Throw e =>
      match recover e w1 b with
      | Some r => r
      | None => (w1, b, Ok tt)
      end
  end.

(** [syncWrapper] *)
Definition syncWrapper (fn : body) (args : list value) (w : world) (b : t) : reply :=
  match generateHash (limit w) (heap_of w) args with
  | Throw e => Reply w b (Throw e) None
  | Ok hash =>
      match mode b with
      | BYPASS =>
          let '(w1, r) := invoke fn args w in Reply w1 b r None
      | RECORD =>
          let '(w1, r) := invoke fn args w in
          match r with
          | Throw e => Reply w1 b (Throw e) None
          | Ok result =>
              Reply w1 b (Ok result)
                    (Some {| must_load := negb (initialized b);
                             job_hash := hash; job_result := result |})
          end
      | PLAYBACK =>
          let '(w1, b1, loaded) := load_for_playback w b in
          match loaded with
          | Throw e => Reply w1 b1 (Throw e) None
          | Ok _ =>
              match storage_has (storage b1) hash with
              | Throw e => Reply w1 b1 (Throw e) None
              | Ok false => Reply w1 b1 (not_found w1 args) None
              | Ok true => Reply w1 b1 (storage_get (storage b1) hash) None
              end
          end
      | Unlisted _ => Reply w b (invalid_mode (mode b)) None
      end
  end.

(** The deferred part of a synchronous recording, run to its end; an
    exception anywhere in it goes to [console.error]. *)
Definition run_job (j : job) (w : world) (b : t) : world * t :=
  let '(w1, b1, loaded) :=
    if must_load j then load_from_file w b else (w, b, Ok tt) in
  match loaded with
  | Throw e => (log (LogError (describe e)) w1, b1)
  | Ok _ =>
      let '(w2, b2, stored) := record (job_hash j) (job_result j) w1 b1 in
      match stored with
      | Ok _ => (w2, b2)
      | Throw e => (log (LogError (describe e)) w2, b2)
      end
  end.

(** A call and, for a synchronous recording, the continuation it left,
    both run to their end. *)
Definition settle (r : reply) : world * t :=
  match deferred r with
  | Some j => run_job j (world_after r) (self_after r)
  | None => (world_after r, self_after r)
  end.


(** The argument lists the wrapped function has been called with. *)
Definition invoked (w : world) : list (list value) :=
  omap (fun e => match e with Invoked args => Some args | _ => None end) (events w).

(** [wrap(fn)] *)
Definition wrap (fn : function) : list value -> world -> t -> reply :=
  if isAsync fn then wrapper (call fn) else syncWrapper (call fn).


End Beatbox.

(** ** The scenarios of the test suite, as values of the model *)

Module Scenario.
Import Js Codec Beatbox.

Definition testStorageFile : string := "test-storage.json".

Definition num (z : Z) : value := VNum (Int z).

(** [(a, b) => a + b] on integers *)
Definition add : body := fun args h =>
  match args with
  | [VNum (Int a); VNum (Int b)] => (h, Ok (VNum (Int (a + b))))
  | _ => (h, Ok (VNum NaN))
  end.

Definition syncAdd : function := {| isAsync := false; call := add |}.
Definition asyncAdd : function := {| isAsync := true; call := add |}.

(** [() => { const obj = { a: 1 }; obj.self = obj; return obj; }] *)
Definition circularResult : body := fun args h =>
  (h ++ [OObject [("a", num 1); ("self", VRef (length h))]], Ok (VRef (length h))).

Definition empty_world : world :=
  {| heap_of := []; disk_of := ∅; now := 1700000000000; limit := 64; events := [] |}.

Definition on_disk (d : Fs.disk) : world := with_disk d empty_world.

Definition fresh (m : Mode) : Beatbox.t := setMode m (create testStorageFile).

End Scenario.

Local Close Scope Z_scope.

Import Json Js Codec Tree Beatbox.

Import Scenario.

(** * Notions the statements are written with *)

(** A failure that is neither a missing file nor a syntax error. *)
Definition other_failure (e : exn) : Prop :=
  error_code e <> Some "ENOENT" /\ is_SyntaxError e = false.

(** An instance that has recorded [add(2, 3)] in memory while the
    temporary file could not be written. *)
Definition unsaved : reply :=
  wrap asyncAdd [num 2; num 3]
       (on_disk {[ (testStorageFile +:+ ".tmp") := Fs.Dir ]}) (fresh RECORD).



Definition unrecordable : string := "Failed to record non-serializable result".

(** [const obj = { a: 1 }; obj.self = obj] *)
Definition self_object : heap := [OObject [("a", num 1); ("self", VRef 0)]].

(** What may follow a number for it to be read whole. *)
Definition number_ends (rest : string) : bool :=
  match rest with
  | EmptyString => true
  | String c _ =>
      match digit_val c with
      | Some _ => false
      | None => negb (starts_fraction rest)
      end
  end.

(** The first character of a number is a sign or a digit. *)
Definition starts_number (c : ascii) : bool :=
  let n := N_of_ascii c in ((n =? 45) || (48 <=? n) && (n <=? 57))%N.

(** The characters a value can start with. *)
Definition value_start (c : ascii) : bool :=
  let n := N_of_ascii c in
  starts_number c
  || ((n =? 110) || (n =? 116) || (n =? 102) || (n =? 34) || (n =? 91) || (n =? 123))%N.

(** The compact text of [j] is read back as [j], whatever follows it. *)
Definition reads_back (j : json) : Prop :=
  forall fuel rest,
    weight j <= fuel -> number_ends rest = true ->
    read_value fuel (compact j +:+ rest) = Some (j, rest).

(** One member of an object, as [compact] writes it. *)
Definition member_text (kv : string * json) : string :=
  quote kv.1 +:+ ":" +:+ compact kv.2.

(** The objects being written all hold the value at hand [n] frames deep
    or more. *)
Definition stack_ok (h : list obj) (stack : list nat) (n : nat) : Prop :=
  forall b, b ∈ stack -> exists tb, denotes h tb (VRef b) = true /\ n < frames tb.

(** [limit] frames are enough for every tree that is no deeper. *)
Definition writes (limit : nat) : Prop :=
  forall t h stack key v,
    denotes h t v = true -> stack_ok h stack (frames t) -> frames t <= limit ->
    serialize limit (Some safeJsonReplacer) h stack key v = Ok (Some (wire t)).



(** A plain object that has the key [__type] of an envelope. *)
Definition tagged : list obj :=
  [OArray [num 1]; OObject [("__type", VStr "Set"); ("value", VRef 0)]].




(** The paths of the files that were read, in order. *)
Definition file_reads (w : world) : list string :=
  omap (fun e => match e with ReadFile p => Some p | _ => None end) (events w).

(** The three paths an instance works with at the time [time]. *)
Definition own_paths (b : Beatbox.t) (time : Z) : list string :=
  [storageFile b; tempFile b; backup_path (storageFile b) time].

(** [w'] differs from [w] by what the instance may do to its own files. *)
Definition same_elsewhere (b : Beatbox.t) (w w' : world) : Prop :=
  now w' = now w /\ limit w' = limit w
  /\ forall p, p ∉ own_paths b (now w) -> disk_of w' !! p = disk_of w !! p.

(** The object at [a] holds itself: [obj.self = obj], [arr.push(arr)]. *)
Definition refers_to_itself (h : list obj) (a : nat) : Prop :=
  match h !! a with
  | Some (OObject fields) => VRef a ∈ fields.*2
  | Some (OArray elems) => VRef a ∈ elems
  | _ => False
  end.

(** The values of [__type] that the reviver knows. *)
Definition envelope_kinds : list string :=
  ["Set"; "Map"; "Date"; "RegExp"; "Error"; "Function"; "Promise"].

(** [undefined], [NaN] and the infinities are written as [null] when they
    are elements of an array. *)
Definition blank (v : value) : bool :=
  match v with
  | VUndefined | VNull | VNum NaN | VNum PosInf | VNum NegInf => true
  | _ => false
  end.

Definition as_element (v : value) : value := if blank v then VNull else v.

(** Two heaps that differ in one array only. *)
Definition differ_at (c : nat) (h1 h2 : list obj) : Prop :=
  length h1 = length h2
  /\ (exists e1 e2, h1 !! c = Some (OArray e1) /\ h2 !! c = Some (OArray e2))
  /\ forall a, a <> c -> h1 !! a = h2 !! a.

(** * Properties *)

(** ** The fingerprint *)

Section Fingerprint.

Lemma length_le_bytes n x : length (Md5.le_bytes n x) = n.
Proof. revert x; induction n as [|n IH]; intros x; simpl; [done | by rewrite IH]. Qed.

Lemma le_bytes_range n x : Forall (fun b => (0 <= b < 256)%Z) (Md5.le_bytes n x).
Proof.
  revert x; induction n as [|n IH]; intros x; simpl; constructor; [|apply IH].
  change 255%Z with (Z.ones 8). rewrite Z.land_ones by lia.
  apply Z.mod_pos_bound; lia.
Qed.

Lemma hex_char_is_hex n : (n < 16)%N -> Md5.is_hex_digit (Text.hex_char n) = true.
Proof.
intros Hn. destruct n as [|p]; [reflexivity|].
do 4 (try (destruct p as [p|p|]; try reflexivity)); lia.
Qed.

Lemma length_append (s1 s2 : string) :
  String.length (s1 +:+ s2) = String.length s1 + String.length s2.
Proof. induction s1 as [|c s1 IH]; simpl; [done | by rewrite IH]. Qed.

Lemma all_hex_append s1 s2 :
  Md5.all_hex (s1 +:+ s2) = Md5.all_hex s1 && Md5.all_hex s2.
Proof.
  induction s1 as [|c s1 IH]; simpl; [done|].
  by rewrite IH, andb_assoc.
Qed.

Lemma hex_shape bs :
  Forall (fun b => (0 <= b < 256)%Z) bs ->
  String.length (Md5.hex bs) = 2 * length bs /\ Md5.all_hex (Md5.hex bs) = true.
Proof.
  induction 1 as [|b bs Hb _ [IHl IHh]]; [done|].
  cbn [Md5.hex]. rewrite length_append, all_hex_append, IHl, IHh.
  split; [simpl; lia|].
  unfold Md5.hex_byte, Text.str1. cbn [Md5.all_hex].
  rewrite !hex_char_is_hex; [done| |].
  - pose proof (Z.mod_pos_bound b 16). lia.
  - assert (0 <= b / 16 < 16)%Z; [|lia].
    split; [apply Z.div_pos; lia | apply Z.div_lt_upper_bound; lia].
Qed.

(** The digest is sixteen bytes, written as thirty-two hexadecimal
    digits. *)
Lemma md5_hex_shape s :
  String.length (Md5.md5_hex s) = 32 /\ Md5.all_hex (Md5.md5_hex s) = true.
Proof.
  unfold Md5.md5_hex, Md5.digest.
  destruct (Md5.blocks _ _ _) as [a b c d].
  destruct (hex_shape (Md5.le_bytes 4 a ++ Md5.le_bytes 4 b
                         ++ Md5.le_bytes 4 c ++ Md5.le_bytes 4 d)) as [Hl Hh].
  { repeat apply Forall_app_2; apply le_bytes_range. }
  rewrite Hl, Hh, !length_app, !length_le_bytes. done.
Qed.

Lemma generateHash_canonical limit h args :
  generateHash limit h args =
    match canonical limit h args with
    | Ok (Some argsStr) => Ok (Md5.md5_hex argsStr)
    | Ok None => Throw (TypeError "The data argument must be of type string")
    | Throw e => Throw e
    end.
Proof.
  unfold generateHash, canonical, alloc.
  by destruct (JSON_stringify _ _ _ _ _) as [[?|]|?].
Qed.

(** C9.  The fingerprint is a function of the canonical encoding of the
    argument list alone: two argument lists, in whatever heaps and under
    whatever stack limits, that have the same canonical encoding have the
    same fingerprint; and a fingerprint is always thirty-two hexadecimal
    digits. *)
Theorem fingerprint_deterministic limit1 limit2 h1 h2 args1 args2 :
  canonical limit1 h1 args1 = canonical limit2 h2 args2 ->
  generateHash limit1 h1 args1 = generateHash limit2 h2 args2
  /\ forall fp, generateHash limit1 h1 args1 = Ok fp ->
                String.length fp = 32 /\ Md5.all_hex fp = true.
Proof.
  intros Heq. rewrite !generateHash_canonical, Heq. split; [done|].
  intros fp. destruct (canonical limit2 h2 args2) as [[argsStr|]|e]; try done.
  intros [= <-]. apply md5_hex_shape.
Qed.

Lemma fingerprint_deterministic_witness :
  canonical 8 [] [num 2; num 3] = canonical 64 [OPromise Pending] [num 2; num 3]
  /\ generateHash 8 [] [num 2; num 3]
      = generateHash 64 [OPromise Pending] [num 2; num 3].
Proof.
  assert (canonical 8 [] [num 2; num 3]
          = canonical 64 [OPromise Pending] [num 2; num 3]) as H by reflexivity.
  split; [exact H|].
  exact (proj1 (fingerprint_deterministic 8 64 [] [OPromise Pending]
                  [num 2; num 3] [num 2; num 3] H)).
Defined.

End Fingerprint.

(** ** Loading *)

Section Loading.

Variables (w : world) (b : Beatbox.t).

Let w1 := log (ReadFile (storageFile b)) w.

Lemma recover_other e w' : other_failure e -> recover e w' b = None.
Proof.
intros [Hcode Hsyn]. unfold recover.
rewrite bool_decide_eq_false_2 by done. by rewrite Hsyn.
Qed.

(** [loadStorage] rethrows such a failure and leaves the instance as it
    was. *)
Lemma load_from_file_rethrows e :
  read_storage w1 b = Throw e -> other_failure e ->
  load_from_file w b = (w1, b, Throw e).
Proof.
intros Hread Hother. unfold load_from_file. fold w1.
by rewrite Hread, recover_other.
Qed.

(** The synchronous copy drops it: the call goes on with the mapping it
    had. *)
Lemma load_for_playback_swallows e :
  read_storage w1 b = Throw e -> other_failure e ->
  load_for_playback w b = (w1, b, Ok tt).
Proof.
intros Hread Hother. unfold load_for_playback. fold w1.
by rewrite Hread, recover_other.
Qed.

(** A file that is not JSON text is moved aside, on both paths. *)
Lemma load_corrupted content :
  disk_of w !! storageFile b = Some (Fs.File content) ->
  Json.read content = None ->
  let backup := backup_path (storageFile b) (now w) in
  disk_of w !! backup = None ->
  let after :=
    (log (Warn (corrupted_notice backup))
       (with_disk (<[backup := Fs.File content]> (delete (storageFile b) (disk_of w)))
          (log (Rename (storageFile b) backup) w1)),
     with_storage (Mapping []) true b, Ok tt) in
  load_from_file w b = after /\ load_for_playback w b = after.
Proof.
intros Hfile Hread backup Hfree after.
assert (read_storage w1 b = Throw (SyntaxError "Unexpected token in JSON")) as Hr.
{ unfold read_storage, Fs.readFile, JSON_parse, w1, log. cbn [disk_of heap_of].
  rewrite Hfile. cbn [bind]. by rewrite Hread. }
assert (recover (SyntaxError "Unexpected token in JSON") w1 b = Some after) as Hrec.
{ unfold recover, Fs.rename, w1, log, is_SyntaxError, SyntaxError, error_code.
  cbn [disk_of now storageFile]. fold backup. rewrite Hfile, Hfree.
  by rewrite bool_decide_eq_false_2. }
unfold load_from_file, load_for_playback. fold w1. by rewrite Hr, Hrec.
Qed.

(** A missing file is an empty mapping, on both paths. *)
Lemma load_missing :
  disk_of w !! storageFile b = None ->
  load_from_file w b = (w1, with_storage (Mapping []) true b, Ok tt)
  /\ load_for_playback w b = (w1, with_storage (Mapping []) true b, Ok tt).
Proof.
intros Hfile.
assert (read_storage w1 b = Throw (Fs.errno "ENOENT")) as Hr.
{ unfold read_storage, Fs.readFile, w1, log. cbn [disk_of]. by rewrite Hfile. }
unfold load_from_file, load_for_playback. fold w1. by rewrite Hr.
Qed.

End Loading.

Lemma unsaved_state :
  returned unsaved = Ok (num 5)
  /\ self_after unsaved
     = Make (Mapping [("d5138fec13c27bb6c645b29cdfa97a84", num 5)])
            testStorageFile RECORD true
  /\ disk_of (world_after unsaved) !! testStorageFile = None
  /\ last (events (world_after unsaved))
     = Some (LogError "Failed to save storage file: EISDIR").
Proof. by vm_compute. Qed.

(** C5.  The synchronous play-back does not have the last [else] of
    [loadStorage].  With the storage path turned into a directory, the
    read fails with [EISDIR]: the asynchronous path ends the call with
    that error, the synchronous one goes on and serves the mapping it had
    in memory. *)
Theorem sync_playback_swallows_load_failure :
  let broken := with_disk {[ testStorageFile := Fs.Dir ]} (world_after unsaved) in
  let stale := setMode PLAYBACK (self_after unsaved) in
  let again := setMode PLAYBACK (create testStorageFile) in
  let r := wrap syncAdd [num 2; num 3] broken stale in
  Fs.readFile (disk_of broken) testStorageFile = Throw (Fs.errno "EISDIR")
  /\ returned (wrap asyncAdd [num 2; num 3] broken again) = Throw (Fs.errno "EISDIR")
  /\ returned r = Ok (num 5)
  /\ storage (self_after r) = storage (self_after unsaved)
  /\ events (world_after r) = events broken ++ [ReadFile testStorageFile].
Proof. by vm_compute. Qed.

(** ** Bypass *)

(** On the synchronous path a by-passed call is the call of the function
    and nothing else. *)
Lemma sync_bypass_direct fn args w b hash :
  mode b = BYPASS ->
  generateHash (limit w) (heap_of w) args = Ok hash ->
  syncWrapper fn args w b
  = Reply (with_heap (fn args (heap_of w)).1 (log (Invoked args) w)) b
          (fn args (heap_of w)).2 None.
Proof.
intros Hmode Hhash. unfold syncWrapper, invoke. rewrite Hhash, Hmode.
by destruct (fn args (heap_of w)).
Qed.

(** C7.  [wrapper] awaits [loadStorage] before it looks at the mode.  An
    asynchronous function called in by-pass mode therefore reads the
    storage file; when the file is corrupted the call moves it aside, and
    when it cannot be read the call fails without the function having run. *)
Theorem async_bypass_touches_storage :
  let damaged := on_disk {[ testStorageFile := Fs.File "corrupted json" ]} in
  let r := wrap asyncAdd [num 2; num 3] damaged (fresh BYPASS) in
  let backup := "test-storage.json.backup.1700000000000" in
  let r' := wrap asyncAdd [num 2; num 3]
                 (on_disk {[ testStorageFile := Fs.Dir ]}) (fresh BYPASS) in
  returned r = Ok (num 5)
  /\ events (world_after r)
     = [ReadFile testStorageFile; Rename testStorageFile backup;
        Warn (corrupted_notice backup); Invoked [num 2; num 3]]
  /\ disk_of (world_after r) = {[ backup := Fs.File "corrupted json" ]}
  /\ initialized (self_after r) = true
  /\ returned r' = Throw (Fs.errno "EISDIR")
  /\ events (world_after r') = [ReadFile testStorageFile].
Proof. by vm_compute. Qed.

(** ** Reading once *)

(** C8.  The synchronous play-back reads the storage file at every call,
    whether or not the instance is initialised, and replaces the mapping
    in memory by what it read: after a recording that could not be saved,
    one synchronous play-back call loses the recorded result. *)
Theorem sync_playback_reads_every_time :
  let r1 := wrap syncAdd [num 2; num 3] empty_world (fresh PLAYBACK) in
  let r2 := wrap syncAdd [num 2; num 3] (world_after r1) (self_after r1) in
  let lost := wrap syncAdd [num 2; num 3] (world_after unsaved)
                   (setMode PLAYBACK (self_after unsaved)) in
  initialized (self_after r1) = true
  /\ events (world_after r2) = [ReadFile testStorageFile; ReadFile testStorageFile]
  /\ storage (self_after unsaved)
     = Mapping [("d5138fec13c27bb6c645b29cdfa97a84", num 5)]
  /\ storage (self_after lost) = Mapping [].
Proof. by vm_compute. Qed.

(** ** Persisting *)

Section Persisting.

Variables (w : world) (b : Beatbox.t).

Lemma tempFile_differs : tempFile b <> storageFile b.
Proof.
unfold tempFile. intros Heq. apply (f_equal String.length) in Heq.
rewrite length_append in Heq. simpl in Heq. lia.
Qed.




End Persisting.


(** ** Properties of ordinary objects *)

Section Props.

Implicit Types (ps : props) (k : string) (v : value).

Lemma has_key_update ps k k' v : has_key k (update_prop k' v ps) = has_key k ps.
Proof.
induction ps as [|[k0 v0] ps IH]; simpl; [done|].
destruct (String.eqb k' k0) eqn:E; simpl; [done | by rewrite IH].
Qed.



Lemma get_app_absent ps ps' k :
  has_key k ps = false -> get_prop k (ps ++ ps') = get_prop k ps'.
Proof.
induction ps as [|[k0 v0] ps IH]; simpl; [done|].
destruct (String.eqb k k0); [done | auto].
Qed.





End Props.

(** ** Writing without a replacer *)

Section Plain.






Lemma lookup_alloc (h : heap) o : (h ++ [o]) !! length h = Some o.
Proof. by rewrite lookup_app_r, Nat.sub_diag. Qed.


End Plain.

(** ** The three modes *)

Section Modes.

Implicit Types (w : world) (b : Beatbox.t) (fn : body) (args : list value).

Lemma invoked_log e w :
  invoked (log e w)
  = invoked w ++ match e with Invoked args => [args] | _ => [] end.
Proof. unfold invoked, log. simpl. rewrite omap_app. by destruct e. Qed.

Lemma recover_keeps e w b w1 b1 res :
  recover e w b = Some (w1, b1, res) ->
  invoked w1 = invoked w /\ heap_of w1 = heap_of w /\ limit w1 = limit w
  /\ mode b1 = mode b /\ storageFile b1 = storageFile b.
Proof.
unfold recover. destruct (bool_decide _); [by intros [= <- <- <-]|].
destruct (is_SyntaxError e); [|done].
destruct (Fs.rename _ _ _); intros [= <- <- <-]; simpl;
  rewrite ?invoked_log, ?app_nil_r; unfold invoked; simpl;
  rewrite ?omap_app, ?app_nil_r; done.
Qed.

(** Loading calls nobody, keeps the mode, and only ever adds to the heap
    what it parsed. *)
Lemma load_from_file_keeps w b w1 b1 res :
  load_from_file w b = (w1, b1, res) ->
  invoked w1 = invoked w /\ limit w1 = limit w
  /\ mode b1 = mode b /\ storageFile b1 = storageFile b.
Proof.
unfold load_from_file.
destruct (read_storage _ b) as [[h v]|e] eqn:Hread.
- intros [= <- <- <-]. simpl. unfold invoked. simpl.
  by rewrite omap_app, app_nil_r.
- destruct (recover e _ b) as [[[w2 b2] r2]|] eqn:Hrec.
  + intros [= <- <- <-]. apply recover_keeps in Hrec as (-> & _ & -> & -> & ->).
    by rewrite invoked_log, app_nil_r.
  + intros [= <- <- <-]. by rewrite invoked_log, app_nil_r.
Qed.

Lemma loadStorage_keeps w b w1 b1 res :
  loadStorage w b = (w1, b1, res) ->
  invoked w1 = invoked w /\ limit w1 = limit w
  /\ mode b1 = mode b /\ storageFile b1 = storageFile b.
Proof.
unfold loadStorage. destruct (initialized b); [by intros [= <- <- <-]|].
apply load_from_file_keeps.
Qed.

Lemma load_for_playback_keeps w b w1 b1 res :
  load_for_playback w b = (w1, b1, res) ->
  invoked w1 = invoked w /\ limit w1 = limit w
  /\ mode b1 = mode b /\ storageFile b1 = storageFile b.
Proof.
unfold load_for_playback.
destruct (read_storage _ b) as [[h v]|e] eqn:Hread.
- intros [= <- <- <-]. simpl. unfold invoked. simpl.
  by rewrite omap_app, app_nil_r.
- destruct (recover e _ b) as [[[w2 b2] r2]|] eqn:Hrec.
  + intros [= <- <- <-]. apply recover_keeps in Hrec as (-> & _ & -> & -> & ->).
    by rewrite invoked_log, app_nil_r.
  + intros [= <- <- <-]. by rewrite invoked_log, app_nil_r.
Qed.





Lemma invoke_invoked fn args w :
  invoked (invoke fn args w).1 = invoked w ++ [args].
Proof.
unfold invoke. destruct (fn args (heap_of w)) as [h res]. simpl.
apply (invoked_log (Invoked args) w).
Qed.



Lemma loadStorage_initialized w b w1 b1 :
  loadStorage w b = (w1, b1, Ok tt) -> initialized b1 = true.
Proof.
unfold loadStorage. destruct (initialized b) eqn:Hi; [by intros [= <- <-]|].
unfold load_from_file. destruct (read_storage _ b) as [[h v]|e]; [by intros [= <- <-]|].
unfold recover. destruct (bool_decide _); [by intros [= <- <-]|].
destruct (is_SyntaxError e); [|done].
by destruct (Fs.rename _ _ _); intros [= <- <-].
Qed.




End Modes.

(** ** Cycles *)

Section Cycles.

(** The replacer never puts a string where there was none: [seen] is
    empty each time it is asked. *)
Lemma replacer_never_marks h key v h' s :
  safeJsonReplacer h key v = Ok (h', VStr s) -> v = VStr s.
Proof.
destruct v as [| | | | |a]; simpl; try (by intros [= _ <-] || done).
destruct (h !! a) as [[]|]; try done.
- by destruct (alloc_entries h entries).
- by destruct time.
Qed.

(** It hands a plain object or an array back as it is. *)
Lemma replacer_keeps_containers h key a o :
  h !! a = Some o ->
  match o with OObject _ | OArray _ => True | _ => False end ->
  safeJsonReplacer h key (VRef a) = Ok (h, VRef a).
Proof. intros Ha Ho. unfold safeJsonReplacer. rewrite Ha. by destruct o. Qed.

Lemma self_object_throws limit :
  2 <= limit ->
  JSON_stringify limit (Some safeJsonReplacer) EmptyString self_object (VRef 0)
  = Throw circular.
Proof. intros Hl. destruct limit as [|[|n]]; [lia..|]. reflexivity. Qed.

(** A set that holds itself is walked again and again: each round is a new
    envelope and a new array, which the builtin's stack has not seen. *)
Lemma self_set_overflows limit :
  forall h stack key a,
    h !! a = Some (OSet [VRef a]) ->
    Forall (fun x => x < length h) stack ->
    serialize limit (Some safeJsonReplacer) h stack key (VRef a) = Throw overflow.
Proof.
induction limit as [limit IH] using lt_wf_ind.
intros h stack key a Ha Hstack.
destruct limit as [|n]; [done|].
cbn [serialize toJSON_step]. rewrite Ha. cbn [safeJsonReplacer]. rewrite Ha.
cbn [alloc bind].
set (h1 := h ++ [OArray [VRef a]]).
set (h2 := h1 ++ [OObject [("__type", VStr "Set"); ("value", VRef (length h))]]).
assert (a < length h) as Hlt by (by eapply lookup_lt_Some).
assert (length h1 = S (length h)) as Hl1
  by (unfold h1; rewrite length_app; simpl; lia).
assert (h2 !! length h1 = Some (OObject [("__type", VStr "Set");
                                          ("value", VRef (length h))])) as H1
  by apply lookup_alloc.
assert (h2 !! length h = Some (OArray [VRef a])) as H0.
{ unfold h2. rewrite lookup_app_l by lia. apply lookup_alloc. }
assert (h2 !! a = Some (OSet [VRef a])) as Ha2.
{ unfold h2, h1. by rewrite !lookup_app_l by (rewrite ?length_app; simpl; lia). }
assert (bool_decide (length h1 ∈ stack) = false) as F1.
{ apply bool_decide_eq_false_2. intros Hin.
  rewrite Forall_forall in Hstack. specialize (Hstack _ Hin). simpl in Hstack. lia. }
assert (bool_decide (length h ∈ length h1 :: stack) = false) as F0.
{ apply bool_decide_eq_false_2. intros [Heq|Hin]%elem_of_cons; [lia|].
  rewrite Forall_forall in Hstack. specialize (Hstack _ Hin). simpl in Hstack. lia. }
rewrite H1, F1. cbn [own_enumerable ser_members].
destruct n as [|m]; [done|].
cbn [serialize toJSON_step bind]. rewrite H0.
rewrite (replacer_keeps_containers _ _ _ _ H0) by done.
cbn [bind]. rewrite H0, F0. cbn [ser_items].
rewrite (IH m); [done | lia | exact Ha2 |].
unfold h2. rewrite length_app, Hl1. simpl.
constructor; [lia|]. constructor; [lia|].
eapply Forall_impl; [exact Hstack|]. simpl. lia.
Qed.

(** C1.  The replacer never yields the marker.  The object of the test
    suite, which refers to itself, ends [JSON.stringify] with the
    builtin's own [TypeError] (whatever room the stack has), so that a
    recording of it stores nothing and logs a warning.  A set that holds
    itself ends [JSON.stringify] with the [RangeError] of an exhausted
    stack, however deep the stack is. *)
Theorem cycle_is_not_marked :
  (forall h key v h' s, safeJsonReplacer h key v = Ok (h', VStr s) -> v = VStr s)
  /\ (forall limit,
       2 <= limit ->
       JSON_stringify limit (Some safeJsonReplacer) EmptyString self_object (VRef 0)
       = Throw circular)
  /\ (forall limit,
       JSON_stringify limit (Some safeJsonReplacer) EmptyString [OSet [VRef 0]] (VRef 0)
       = Throw overflow)
  /\ (let r := wrap {| isAsync := false; call := circularResult |} []
                    empty_world (fresh RECORD) in
      returned r = Ok (VRef 0)
      /\ heap_of (world_after r) = self_object
      /\ storage (settle r).2 = Mapping []
      /\ last (events (settle r).1) = Some (Warn unrecordable)).
Proof.
split; [exact replacer_never_marks|]. split; [exact self_object_throws|].
split; [|by vm_compute].
intros limit. unfold JSON_stringify.
by rewrite (self_set_overflows limit [OSet [VRef 0]] [] EmptyString 0).
Qed.

Lemma cycle_is_not_marked_witness :
  2 <= 64
  /\ JSON_stringify 64 (Some safeJsonReplacer) EmptyString self_object (VRef 0)
     = Throw circular.
Proof.
assert (2 <= 64) as H by lia.
split; [exact H|]. exact (proj1 (proj2 cycle_is_not_marked) 64 H).
Defined.

End Cycles.

(** ** Reading back what was written *)

Section TextRoundTrip.

Lemma append_cons c (s t : string) : String c s +:+ t = String c (s +:+ t).
Proof. reflexivity. Qed.

Lemma append_nil (t : string) : EmptyString +:+ t = t.
Proof. reflexivity. Qed.

Lemma append_assoc (s t u : string) : (s +:+ t) +:+ u = s +:+ (t +:+ u).
Proof. induction s as [|c s IH]; [done|]. by rewrite !append_cons, IH. Qed.

(** *** Strings *)

(** One character, written and read back. *)
Lemma read_quote_char c body :
  read_string_body (quote_char c +:+ body)
  = match read_string_body body with
    | Some (s, tail) => Some (String c s, tail)
    | None => None
    end.
Proof. destruct c as [[] [] [] [] [] [] [] []]; reflexivity. Qed.

Lemma read_string_quoted s rest :
  read_string_body (quote_body s +:+ String Text.dquote rest) = Some (s, rest).
Proof.
induction s as [|c s IH]; [reflexivity|].
cbn [quote_body]. by rewrite append_assoc, read_quote_char, IH.
Qed.

(** *** Numbers *)

Ltac below_ten d :=
  destruct d as [|d]; [|do 4 (try (destruct d as [d|d|]))]; try lia.

Lemma digit_val_digit_char d : (d < 10)%N -> digit_val (Text.digit_char d) = Some d.
Proof. intros Hd. below_ten d; reflexivity. Qed.

Lemma read_digits_end a rest : number_ends rest = true -> read_digits a rest = (a, rest).
Proof.
destruct rest as [|c rest]; [done|]. simpl. by destruct (digit_val c).
Qed.

Lemma digits_go_append fuel : forall n (s t : string),
  Text.digits_go fuel n s +:+ t = Text.digits_go fuel n (s +:+ t).
Proof.
induction fuel as [|f IH]; intros n s t; [done|].
cbn [Text.digits_go]. destruct (n / 10 =? 0)%N; [done|]. by rewrite IH.
Qed.

Lemma read_digits_go fuel : forall n s,
  (n < 2 ^ N.of_nat fuel)%N ->
  exists m, forall a,
    read_digits a (Text.digits_go fuel n s) = read_digits (a * m + n)%N s.
Proof.
induction fuel as [|f IH]; intros n s Hn.
- exists 1%N. intros a. change (2 ^ N.of_nat 0)%N with 1%N in Hn.
  cbn [Text.digits_go]. f_equal. lia.
- cbn [Text.digits_go].
  assert (n mod 10 < 10)%N as Hmod by (apply N.mod_lt; lia).
  destruct (n / 10 =? 0)%N eqn:Hdiv.
  + apply N.eqb_eq in Hdiv. exists 10%N. intros a. cbn [read_digits].
    rewrite digit_val_digit_char by done.
    f_equal. pose proof (N.div_mod n 10). lia.
  + destruct (IH (n / 10)%N (String (Text.digit_char (n mod 10)) s)) as [m Hm].
    { rewrite Nat2N.inj_succ, N.pow_succ_r' in Hn.
      apply N.Div0.div_lt_upper_bound. lia. }
    exists (m * 10)%N. intros a. rewrite Hm. cbn [read_digits].
    rewrite digit_val_digit_char by done.
    f_equal. pose proof (N.div_mod n 10). lia.
Qed.

Lemma digits_go_head fuel : forall n s,
  (0 < n < 2 ^ N.of_nat fuel)%N ->
  exists d tail, Text.digits_go fuel n s = String (Text.digit_char d) tail
                 /\ (0 < d < 10)%N.
Proof.
induction fuel as [|f IH]; intros n s Hn; [simpl in Hn; lia|].
cbn [Text.digits_go].
destruct (n / 10 =? 0)%N eqn:Hdiv.
- apply N.eqb_eq in Hdiv. exists (n mod 10)%N, s. split; [done|].
  pose proof (N.div_mod n 10). pose proof (N.mod_lt n 10). lia.
- apply N.eqb_neq in Hdiv. apply IH.
  rewrite Nat2N.inj_succ, N.pow_succ_r' in Hn.
  split; [by apply N.neq_0_lt_0 | apply N.Div0.div_lt_upper_bound; lia].
Qed.

Lemma N_to_string_fuel n : (n < 2 ^ N.of_nat (S (N.to_nat (N.log2 n))))%N.
Proof.
rewrite Nat2N.inj_succ, N2Nat.id.
destruct n as [|p]; [done|]. apply N.log2_spec. lia.
Qed.

Lemma read_natural_positive p rest :
  number_ends rest = true ->
  read_natural (Text.N_to_string (Npos p) +:+ rest) = Some (Npos p, rest).
Proof.
intros Hrest. unfold Text.N_to_string. rewrite digits_go_append, append_nil.
pose proof (N_to_string_fuel (Npos p)) as Hfuel.
destruct (read_digits_go _ _ rest Hfuel) as [m Hm].
destruct (digits_go_head (S (N.to_nat (N.log2 (Npos p)))) (Npos p) rest)
  as (d & tail & Hhead & Hd); [lia|].
specialize (Hm 0%N). rewrite Hhead in Hm |- *.
cbn [read_digits] in Hm. unfold read_natural.
rewrite digit_val_digit_char in Hm |- * by lia.
destruct d as [|d]; [lia|].
change (0 * 10 + N.pos d)%N with (N.pos d) in Hm.
change (0 * m + N.pos p)%N with (N.pos p) in Hm.
rewrite Hm, read_digits_end by done.
destruct rest as [|c rest]; [done|]. simpl in Hrest |- *.
destruct (digit_val c); [done|]. by apply negb_true_iff in Hrest as ->.
Qed.

Lemma read_natural_zero rest :
  number_ends rest = true -> read_natural (String "0" rest) = Some (0%N, rest).
Proof.
intros Hrest. destruct rest as [|c rest]; [done|]. simpl in Hrest |- *.
destruct (digit_val c); [done|]. by apply negb_true_iff in Hrest as ->.
Qed.

Lemma read_number_digit d s :
  (d < 10)%N ->
  read_number (String (Text.digit_char d) s)
  = match read_natural (String (Text.digit_char d) s) with
    | Some (n, tail) => Some (Z.of_N n, tail)
    | None => None
    end.
Proof. intros Hd. below_ten d; reflexivity. Qed.

Lemma read_number_written z rest :
  number_ends rest = true ->
  read_number (Text.Z_to_string z +:+ rest) = Some (z, rest)
  /\ exists c tail, Text.Z_to_string z +:+ rest = String c tail
                    /\ starts_number c = true.
Proof.
intros Hrest. destruct z as [|p|p]; cbn [Text.Z_to_string].
- rewrite append_cons, append_nil. split; [|by eauto].
  unfold read_number. by rewrite read_natural_zero.
- pose proof (read_natural_positive p rest Hrest) as Hnat.
  pose proof (N_to_string_fuel (Npos p)) as Hfuel.
  destruct (digits_go_head (S (N.to_nat (N.log2 (Npos p)))) (Npos p) EmptyString)
    as (d & tail & Hhead & Hd); [lia|].
  fold (Text.N_to_string (Npos p)) in Hhead. rewrite Hhead in Hnat |- *.
  rewrite append_cons in Hnat |- *.
  split; [|exists (Text.digit_char d), (tail +:+ rest); split; [done|];
           below_ten d; reflexivity].
  rewrite read_number_digit by lia.
  by rewrite Hnat.
- rewrite append_cons. split; [|by eauto].
  unfold read_number. by rewrite read_natural_positive.
Qed.

End TextRoundTrip.


(** *** Documents *)

Section Documents.

Lemma json_induction (P : json -> Prop) :
  P JNull -> (forall b, P (JBool b)) -> (forall z, P (JNum z)) ->
  (forall s, P (JStr s)) ->
  (forall items, Forall P items -> P (JArr items)) ->
  (forall members, Forall (fun kv => P kv.2) members -> P (JObj members)) ->
  forall j, P j.
Proof.
intros Hnull Hbool Hnum Hstr Harr Hobj.
fix IH 1. intros [| b | z | s | items | members].
- exact Hnull.
- exact (Hbool b).
- exact (Hnum z).
- exact (Hstr s).
- apply Harr.
  refine ((fix all (l : list json) : Forall P l :=
             match l with
             | [] => Forall_nil_2 _
             | x :: l' => Forall_cons_2 _ _ _ (IH x) (all l')
             end) items).
- apply Hobj.
  refine ((fix all (l : list (string * json)) : Forall (fun kv => P kv.2) l :=
             match l with
             | [] => Forall_nil_2 _
             | kv :: l' => Forall_cons_2 _ _ _ (IH kv.2) (all l')
             end) members).
Qed.

Lemma value_start_facts c :
  value_start c = true ->
  is_ws c = false /\ Ascii.eqb c "]" = false /\ Ascii.eqb c "}" = false.
Proof. destruct c as [[] [] [] [] [] [] [] []]; by vm_compute. Qed.

Lemma compact_array x items :
  compact (JArr (x :: items))
  = "[" +:+ Text.join "," (List.map compact (x :: items)) +:+ "]".
Proof. reflexivity. Qed.

Lemma compact_object kv members :
  compact (JObj (kv :: members))
  = "{" +:+ Text.join ","
              (List.map (fun kv => quote kv.1 +:+ ":" +:+ compact kv.2) (kv :: members))
        +:+ "}".
Proof. reflexivity. Qed.

Lemma compact_start j :
  exists c s, compact j = String c s /\ value_start c = true.
Proof.
destruct j as [| [] | z | s | [|x items] | [|kv members]];
  try (by eexists _, _; split; [reflexivity|]).
destruct (read_number_written z EmptyString eq_refl) as (_ & c & tail & Hz & Hc).
exists c, tail. split.
- rewrite <- Hz. unfold compact. cbn [render]. clear.
  induction (Text.Z_to_string z) as [|c s IH]; [done|]. by rewrite append_cons, <- IH.
- unfold value_start. by rewrite Hc.
Qed.

Lemma read_value_number fuel c tail :
  starts_number c = true ->
  read_value (S fuel) (String c tail)
  = match read_number (String c tail) with
    | Some (z, rest) => Some (JNum z, rest)
    | None => None
    end.
Proof.
intros Hc. destruct c as [[] [] [] [] [] [] [] []]; try discriminate Hc; reflexivity.
Qed.

Lemma skip_ws_value c s : value_start c = true -> skip_ws (String c s) = String c s.
Proof. intros Hc. simpl. by destruct (value_start_facts c Hc) as (-> & _). Qed.

Lemma skip_ws_compact j rest : skip_ws (compact j +:+ rest) = compact j +:+ rest.
Proof.
destruct (compact_start j) as (c & s & -> & Hc). rewrite append_cons.
by apply skip_ws_value.
Qed.

Ltac flatten_text :=
  repeat first [rewrite append_assoc | rewrite append_cons | rewrite append_nil].

Ltac next_char c :=
  change (skip_ws (String c ?t)) with (String c t); cbv iota beta.

Lemma read_items_written items :
  Forall reads_back items -> items <> [] ->
  forall fuel rest,
    list_sum (List.map (fun x => S (weight x)) items) <= fuel ->
    read_items fuel (Text.join "," (List.map compact items) +:+ String "]" rest)
    = Some (items, rest).
Proof.
induction 1 as [|x items Hx Hitems IH]; [done|]. intros _ fuel rest Hfuel.
simpl in Hfuel.
destruct fuel as [|f]; [lia|]. cbn [read_items].
destruct items as [|y items].
- cbn [List.map Text.join]. rewrite Hx by (done || lia). by next_char "]"%char.
- change (Text.join "," (List.map compact (x :: y :: items)))
    with (compact x +:+ "," +:+ Text.join "," (List.map compact (y :: items))).
  flatten_text. rewrite Hx by (done || lia). next_char ","%char.
  by rewrite IH by (done || lia).
Qed.

Lemma read_members_written members :
  Forall (fun kv => reads_back kv.2) members -> members <> [] ->
  forall fuel rest,
    list_sum (List.map (fun kv => S (weight (snd kv))) members) <= fuel ->
    read_members fuel
      (Text.join "," (List.map member_text members) +:+ String "}" rest)
    = Some (members, rest).
Proof.
induction 1 as [|[k x] members Hx Hmembers IH]; [done|]. intros _ fuel rest Hfuel.
simpl in Hfuel, Hx.
destruct fuel as [|f]; [lia|]. cbn [read_members].
assert (forall tail,
          skip_ws (member_text (k, x) +:+ tail)
          = String Text.dquote (quote_body k +:+ String Text.dquote
                                  (String ":" (compact x +:+ tail)))) as Hstart.
{ intros tail. unfold member_text, quote, Text.str1. cbn [fst snd]. by flatten_text. }
destruct members as [|kv members].
- cbn [List.map Text.join]. rewrite Hstart.
  change (Ascii.eqb Text.dquote Text.dquote) with true. cbv iota.
  rewrite read_string_quoted. next_char ":"%char.
  rewrite Hx by (done || lia). by next_char "}"%char.
- change (Text.join "," (List.map member_text ((k, x) :: kv :: members)))
    with (member_text (k, x) +:+ ","
            +:+ Text.join "," (List.map member_text (kv :: members))).
  rewrite append_assoc, Hstart.
  change (Ascii.eqb Text.dquote Text.dquote) with true. cbv iota.
  rewrite read_string_quoted. next_char ":"%char. flatten_text.
  rewrite Hx by (done || lia). next_char ","%char.
  by rewrite IH by (done || lia).
Qed.

Lemma closes_value close j rest :
  Ascii.eqb close "]" || Ascii.eqb close "}" = true ->
  closes close (compact j +:+ rest) = None.
Proof.
intros Hclose. unfold closes. rewrite skip_ws_compact.
destruct (compact_start j) as (c & s & -> & Hc). rewrite append_cons.
destruct (value_start_facts c Hc) as (_ & H1 & H2).
apply orb_true_iff in Hclose as [->%Ascii.eqb_eq | ->%Ascii.eqb_eq];
  by rewrite ?H1, ?H2.
Qed.

(** Every document is read back from its compact text, whatever follows
    that can follow a value. *)
Lemma read_value_written j : reads_back j.
Proof.
induction j as [| [] | z | s | items IH | members IH] using json_induction;
  intros fuel rest Hfuel Hrest; (destruct fuel as [|f]; [simpl in Hfuel; lia|]).
- reflexivity.
- reflexivity.
- reflexivity.
- destruct (read_number_written z rest Hrest) as (Hread & c & tail & Hz & Hc).
  unfold compact. cbn [render]. rewrite Hz, read_value_number, <- Hz by done.
  by rewrite Hread.
- unfold compact. cbn [render]. unfold quote, Text.str1. flatten_text.
  cbn [read_value]. next_char Text.dquote.
  change (N_of_ascii Text.dquote) with 34%N. cbv [N.eqb Pos.eqb]. cbv iota.
  by rewrite read_string_quoted.
- destruct items as [|x items]; [reflexivity|].
  rewrite compact_array. flatten_text. cbn [read_value]. next_char "["%char.
  change (N_of_ascii "[") with 91%N. cbv [N.eqb Pos.eqb]. cbv iota.
  destruct (compact_start x) as (c & sx & Hsx & Hc).
  assert (closes "]" (Text.join "," (List.map compact (x :: items)) +:+ String "]" rest)
          = None) as ->.
  { destruct items; cbn [List.map Text.join]; flatten_text; by apply closes_value. }
  rewrite read_items_written; try done. simpl in Hfuel |- *. lia.
- destruct members as [|kv members]; [reflexivity|].
  rewrite compact_object. flatten_text. cbn [read_value]. next_char "{"%char.
  change (N_of_ascii "{") with 123%N. cbv [N.eqb Pos.eqb]. cbv iota.
  fold member_text.
  assert (closes "}" (Text.join "," (List.map member_text (kv :: members))
                        +:+ String "}" rest) = None) as ->.
  { destruct members; cbn [List.map Text.join]; unfold member_text at 1, quote;
      by flatten_text. }
  rewrite read_members_written; try done. simpl in Hfuel |- *. lia.
Qed.

Lemma length_join_items items :
  Forall (fun j => weight j <= String.length (compact j)) items ->
  items <> [] ->
  list_sum (List.map (fun x => S (weight x)) items)
  <= S (String.length (Text.join "," (List.map compact items))).
Proof.
induction 1 as [|x items Hx _ IH]; [done|]. intros _.
destruct items as [|y items]; [simpl; lia|].
change (Text.join "," (List.map compact (x :: y :: items)))
  with (compact x +:+ "," +:+ Text.join "," (List.map compact (y :: items))).
rewrite !length_append. specialize (IH ltac:(done)). simpl in IH |- *. lia.
Qed.

Lemma length_join_members members :
  Forall (fun kv => weight kv.2 <= String.length (compact kv.2)) members ->
  members <> [] ->
  list_sum (List.map (fun kv => S (weight (snd kv))) members)
  <= S (String.length (Text.join "," (List.map member_text members))).
Proof.
induction 1 as [|[k x] members Hx _ IH]; [done|]. intros _.
assert (String.length (compact x) <= String.length (member_text (k, x))) as Hm.
{ unfold member_text. rewrite !length_append. simpl. lia. }
simpl in Hx.
destruct members as [|kv members]; [simpl in *; lia|].
change (Text.join "," (List.map member_text ((k, x) :: kv :: members)))
  with (member_text (k, x) +:+ ","
          +:+ Text.join "," (List.map member_text (kv :: members))).
rewrite (length_append (member_text (k, x))), (length_append ",").
specialize (IH ltac:(done)).
set (L := String.length (Text.join "," (List.map member_text (kv :: members)))) in *.
set (M := String.length (member_text (k, x))) in *. clearbody L M.
simpl in IH |- *. lia.
Qed.

(** The text is long enough to be its own fuel. *)
Lemma weight_le_length j : weight j <= String.length (compact j).
Proof.
induction j as [| [] | z | s | items IH | members IH] using json_induction.
- simpl; lia.
- simpl; lia.
- simpl; lia.
- destruct (compact_start (JNum z)) as (c & tail & -> & _). simpl. lia.
- unfold compact. cbn [render]. unfold quote. simpl. lia.
- destruct items as [|x items]; [simpl; lia|].
  rewrite compact_array, !length_append.
  pose proof (length_join_items _ IH ltac:(done)). simpl in *. lia.
- destruct members as [|kv members]; [simpl; lia|].
  rewrite compact_object, !length_append. fold member_text.
  pose proof (length_join_members _ IH ltac:(done)). simpl in *. lia.
Qed.

Lemma append_empty (s : string) : s +:+ EmptyString = s.
Proof. induction s as [|c s IH]; [done|]. by rewrite append_cons, IH. Qed.

(** [JSON.parse] reads what [JSON.stringify] wrote. *)
Lemma read_compact j : Json.read (compact j) = Some j.
Proof.
unfold Json.read.
rewrite <- (append_empty (compact j)) at 2.
rewrite read_value_written; [done| |done].
pose proof (weight_le_length j). lia.
Qed.

End Documents.


(** ** Trees and the heap *)

Section Trees.

Lemma tree_induction (P : tree -> Prop) :
  P TNull -> (forall b, P (TBool b)) -> (forall z, P (TNum z)) ->
  (forall s, P (TStr s)) ->
  (forall items, Forall P items -> P (TArr items)) ->
  (forall fields, Forall (fun kt => P kt.2) fields -> P (TObj fields)) ->
  (forall elems, Forall P elems -> P (TSet elems)) ->
  (forall entries, Forall (fun kv => P kv.1 /\ P kv.2) entries -> P (TMap entries)) ->
  (forall source flags, P (TRegExp source flags)) ->
  (forall name message stack, P (TError name message stack)) ->
  forall t, P t.
Proof.
intros Hnull Hbool Hnum Hstr Harr Hobj Hset Hmap Hre Herr.
fix IH 1. intros [| b | z | s | items | fields | elems | entries | src fl | n m st].
- exact Hnull.
- exact (Hbool b).
- exact (Hnum z).
- exact (Hstr s).
- apply Harr.
  refine ((fix all (l : list tree) : Forall P l :=
             match l with
             | [] => Forall_nil_2 _
             | x :: l' => Forall_cons_2 _ _ _ (IH x) (all l')
             end) items).
- apply Hobj.
  refine ((fix all (l : list (string * tree)) : Forall (fun kt => P kt.2) l :=
             match l with
             | [] => Forall_nil_2 _
             | kt :: l' => Forall_cons_2 _ _ _ (IH kt.2) (all l')
             end) fields).
- apply Hset.
  refine ((fix all (l : list tree) : Forall P l :=
             match l with
             | [] => Forall_nil_2 _
             | x :: l' => Forall_cons_2 _ _ _ (IH x) (all l')
             end) elems).
- apply Hmap.
  refine ((fix all (l : list (tree * tree)) : Forall (fun kv => P kv.1 /\ P kv.2) l :=
             match l with
             | [] => Forall_nil_2 _
             | kv :: l' => Forall_cons_2 _ _ _ (conj (IH kv.1) (IH kv.2)) (all l')
             end) entries).
- exact (Hre src fl).
- exact (Herr n m st).
Qed.

Lemma all2_Forall2 {A B} (p : A -> B -> bool) l1 l2 :
  all2 p l1 l2 = true <-> Forall2 (fun x y => p x y = true) l1 l2.
Proof.
revert l2. induction l1 as [|x l1 IH]; intros [|y l2]; simpl.
- split; [constructor | done].
- split; [done | inversion 1].
- split; [done | inversion 1].
- rewrite andb_true_iff, IH. split.
  + intros [Hp Hl]. by constructor.
  + inversion 1; subst. done.
Qed.

Lemma all2_impl {A B} (p q : A -> B -> bool) l1 l2 :
  Forall (fun x => forall y, p x y = true -> q x y = true) l1 ->
  all2 p l1 l2 = true -> all2 q l1 l2 = true.
Proof.
intros Hpq. revert l2. induction Hpq as [|x l1 Hx _ IH]; intros [|y l2]; simpl;
  try done.
intros [Hp Hl]%andb_true_iff. apply andb_true_iff. auto.
Qed.

Lemma all2_functional {A B} (p : A -> B -> bool) l1 l1' l2 :
  Forall (fun x => forall x' y, p x y = true -> p x' y = true -> x = x') l1 ->
  all2 p l1 l2 = true -> all2 p l1' l2 = true -> l1 = l1'.
Proof.
intros Hf. revert l1' l2.
induction Hf as [|x l1 Hx _ IH]; intros [|x' l1'] [|y l2]; simpl; try done.
intros [Hp Hl]%andb_true_iff [Hp' Hl']%andb_true_iff.
f_equal; [by eapply Hx | by eapply IH].
Qed.

Lemma lookup_extend (h ext : list obj) a o :
  h !! a = Some o -> (h ++ ext) !! a = Some o.
Proof. apply lookup_app_l_Some. Qed.

(** Allocation does not change what a value denotes. *)
Lemma denotes_extend t : forall h ext v,
  denotes h t v = true -> denotes (h ++ ext) t v = true.
Proof.
induction t as [| b | z | s | items IH | fields IH | elems IH | entries IH
               | src fl | n m st] using tree_induction;
  intros h ext v; try done;
  (destruct v as [| | | | |a]; try done; cbn [denotes];
   destruct (h !! a) as [o|] eqn:Ha; [|done];
   rewrite (lookup_extend _ ext _ _ Ha); destruct o; try done).
- apply all2_impl. eapply Forall_impl; [exact IH|]. intros t Ht v. apply Ht.
- apply all2_impl. eapply Forall_impl; [exact IH|]. intros [k t] Ht [k' v].
  simpl in *. intros [-> Hd]%andb_true_iff. apply andb_true_iff. auto.
- apply all2_impl. eapply Forall_impl; [exact IH|]. intros t Ht v. apply Ht.
- apply all2_impl. eapply Forall_impl; [exact IH|]. intros [k t] [Hk Ht] [k' v].
  simpl in *. intros [H1 H2]%andb_true_iff. apply andb_true_iff. auto.
Qed.

Lemma optional_inj o o' : optional o = optional o' -> o = o'.
Proof. destruct o, o'; simpl; congruence. Qed.

(** A value denotes one tree at most. *)
Lemma denotes_functional t : forall t' h v,
  denotes h t v = true -> denotes h t' v = true -> t = t'.
Proof.
induction t as [| b | z | s | items IH | fields IH | elems IH | entries IH
               | src fl | n m st] using tree_induction;
  intros t' h v Ht Ht'.
- destruct v; try done. by destruct t'.
- destruct v as [| |b'| | |]; try done. destruct t'; try done. simpl in *.
  apply eqb_prop in Ht, Ht'. congruence.
- destruct v as [| | |[z'| | | ]| |]; try done. destruct t'; try done. simpl in *.
  apply Z.eqb_eq in Ht, Ht'. congruence.
- destruct v as [| | | |s'|]; try done. destruct t'; try done. simpl in *.
  apply String.eqb_eq in Ht, Ht'. congruence.
- destruct v as [| | | | |a]; try done. cbn [denotes] in Ht.
  destruct (h !! a) as [[]|] eqn:Ha; try done.
  destruct t'; try done; cbn [denotes] in Ht'; rewrite Ha in Ht'; try done.
  f_equal. eapply all2_functional; [|exact Ht|exact Ht'].
  eapply Forall_impl; [exact IH|]. intros t Hrec t' y. apply Hrec.
- destruct v as [| | | | |a]; try done. cbn [denotes] in Ht.
  destruct (h !! a) as [[]|] eqn:Ha; try done.
  destruct t'; try done; cbn [denotes] in Ht'; rewrite Ha in Ht'; try done.
  f_equal. eapply all2_functional; [|exact Ht|exact Ht'].
  eapply Forall_impl; [exact IH|]. intros [k t] Hrec [k' t'] [k0 y]. simpl in *.
  intros [->%String.eqb_eq H1]%andb_true_iff [->%String.eqb_eq H2]%andb_true_iff.
  f_equal. by eapply Hrec.
- destruct v as [| | | | |a]; try done. cbn [denotes] in Ht.
  destruct (h !! a) as [[]|] eqn:Ha; try done.
  destruct t'; try done; cbn [denotes] in Ht'; rewrite Ha in Ht'; try done.
  f_equal. eapply all2_functional; [|exact Ht|exact Ht'].
  eapply Forall_impl; [exact IH|]. intros t Hrec t' y. apply Hrec.
- destruct v as [| | | | |a]; try done. cbn [denotes] in Ht.
  destruct (h !! a) as [[]|] eqn:Ha; try done.
  destruct t'; try done; cbn [denotes] in Ht'; rewrite Ha in Ht'; try done.
  f_equal. eapply all2_functional; [|exact Ht|exact Ht'].
  eapply Forall_impl; [exact IH|]. intros [k t] [Hk Hv] [k' t'] [k0 y]. simpl in *.
  intros [H1 H2]%andb_true_iff [H3 H4]%andb_true_iff.
  f_equal; [by eapply Hk | by eapply Hv].
- destruct v as [| | | | |a]; try done. cbn [denotes] in Ht.
  destruct (h !! a) as [[]|] eqn:Ha; try done.
  destruct t'; try done; cbn [denotes] in Ht'; rewrite Ha in Ht'; try done.
  apply andb_true_iff in Ht as [->%String.eqb_eq ->%String.eqb_eq].
  apply andb_true_iff in Ht' as [->%String.eqb_eq ->%String.eqb_eq]. done.
- destruct v as [| | | | |a]; try done. cbn [denotes] in Ht.
  destruct (h !! a) as [[]|] eqn:Ha; try done.
  destruct t'; try done; cbn [denotes] in Ht'; rewrite Ha in Ht'; try done.
  apply andb_true_iff in Ht as [[E1%bool_decide_eq_true ->%String.eqb_eq]%andb_true_iff
                                  E2%bool_decide_eq_true].
  apply andb_true_iff in Ht' as [[E3%bool_decide_eq_true ->%String.eqb_eq]%andb_true_iff
                                   E4%bool_decide_eq_true].
  rewrite E1 in E3. rewrite E2 in E4.
  apply optional_inj in E3, E4. congruence.
Qed.

End Trees.

(** ** What the replacer and the walk write for a tree *)

Section Writing.

Lemma frames_pos t : 0 < frames t.
Proof. destruct t; simpl; lia. Qed.

Lemma list_max_elem {A} (f : A -> nat) l x :
  x ∈ l -> f x <= list_max (List.map f l).
Proof. induction 1; simpl; lia. Qed.

Lemma stack_fresh h stack t a :
  stack_ok h stack (frames t) -> denotes h t (VRef a) = true ->
  bool_decide (a ∈ stack) = false.
Proof.
intros Hs Hd. apply bool_decide_eq_false_2. intros Hin.
destruct (Hs a Hin) as (tb & Hb & Hlt).
rewrite (denotes_functional _ _ _ _ Hd Hb) in Hlt. lia.
Qed.

Lemma stack_push h stack t a n :
  stack_ok h stack (frames t) -> denotes h t (VRef a) = true -> n < frames t ->
  stack_ok h (a :: stack) n.
Proof.
intros Hs Hd Hn b [->|Hin]%elem_of_cons.
- exists t. auto.
- destruct (Hs b Hin) as (tb & Hb & Hlt). exists tb. split; [done|lia].
Qed.

Lemma stack_extend h ext stack n m :
  stack_ok h stack n -> m <= n -> stack_ok (h ++ ext) stack m.
Proof.
intros Hs Hm b Hin. destruct (Hs b Hin) as (tb & Hb & Hlt). exists tb.
split; [by apply denotes_extend | lia].
Qed.

Lemma ser_items_wire h rec items : forall vs i,
  all2 (denotes h) items vs = true ->
  (forall t v key, t ∈ items -> denotes h t v = true -> rec key v = Ok (Some (wire t))) ->
  ser_items rec i vs = Ok (List.map wire items).
Proof.
induction items as [|t items IH]; intros [|v vs] i; simpl; try done.
intros [Ht Hl]%andb_true_iff Hrec.
rewrite (Hrec t v _ (list_elem_of_here _ _) Ht). simpl.
rewrite (IH vs (S i) Hl); [done|].
intros t' v' key Hin. apply Hrec. by apply list_elem_of_further.
Qed.

Lemma ser_members_wire h rec fields : forall ps,
  all2 (fun kt kv => String.eqb (fst kt) (fst kv) && denotes h (snd kt) (snd kv))
       fields ps = true ->
  (forall kt v key, kt ∈ fields -> denotes h kt.2 v = true ->
                    rec key v = Ok (Some (wire kt.2))) ->
  ser_members rec ps = Ok (List.map (fun kt => (fst kt, wire (snd kt))) fields).
Proof.
induction fields as [|[k t] fields IH]; intros [|[k' v] ps]; simpl; try done.
intros [[->%String.eqb_eq Ht]%andb_true_iff Hl]%andb_true_iff Hrec.
rewrite (Hrec (k', t) v _ (list_elem_of_here _ _) Ht). simpl.
rewrite (IH ps Hl); [done|].
intros t' v' key Hin. apply Hrec. by apply list_elem_of_further.
Qed.

Lemma denotes_items_extend h ext items vs :
  all2 (denotes h) items vs = true -> all2 (denotes (h ++ ext)) items vs = true.
Proof.
apply all2_impl, Forall_forall. intros t _ v. apply denotes_extend.
Qed.

Lemma alloc_entries_spec entries : forall h,
  alloc_entries h entries
  = (h ++ List.map (fun e => OArray [e.1; e.2]) entries,
     List.map VRef (seq (length h) (length entries))).
Proof.
induction entries as [|[k v] entries IH]; intros h; simpl.
- by rewrite app_nil_r.
- rewrite IH. rewrite length_app. simpl. rewrite Nat.add_1_r.
  by rewrite <- app_assoc.
Qed.

Lemma denotes_entries h tentries : forall es pre post,
  h = pre ++ List.map (fun e => OArray [e.1; e.2]) es ++ post ->
  all2 (fun tt vv => denotes h tt.1 vv.1 && denotes h tt.2 vv.2) tentries es = true ->
  all2 (denotes h) (List.map (fun kv => TArr [kv.1; kv.2]) tentries)
       (List.map VRef (seq (length pre) (length es))) = true.
Proof.
induction tentries as [|[tk tv] tentries IH]; intros [|[k v] es] pre post Hh; simpl;
  try done.
intros [[Hk Hv]%andb_true_iff Hl]%andb_true_iff.
apply andb_true_iff. split.
- subst h. rewrite lookup_app_r by lia. rewrite Nat.sub_diag. simpl.
  simpl in Hk, Hv. by rewrite Hk, Hv.
- specialize (IH es (pre ++ [OArray [k; v]]) post).
  rewrite length_app, Nat.add_1_r in IH. apply IH; [|done].
  rewrite Hh. simpl. by rewrite <- app_assoc.
Qed.

Lemma frames_entries (entries : list (tree * tree)) :
  list_max (List.map frames (List.map (fun kv => TArr [kv.1; kv.2]) entries))
  <= S (list_max (List.map (fun kv => Nat.max (frames kv.1) (frames kv.2)) entries)).
Proof. induction entries as [|[k v] entries IH]; simpl in *; lia. Qed.

Lemma denotes_pairs_extend h ext (entries : list (tree * tree)) es :
  all2 (fun tt vv => denotes h tt.1 vv.1 && denotes h tt.2 vv.2) entries es = true ->
  all2 (fun tt vv => denotes (h ++ ext) tt.1 vv.1 && denotes (h ++ ext) tt.2 vv.2)
       entries es = true.
Proof.
apply all2_impl, Forall_forall. intros [k v] _ [k' v']. simpl.
intros [H1 H2]%andb_true_iff. by rewrite !denotes_extend.
Qed.

Lemma denotes_ref h t a : denotes h t (VRef a) = true -> a < length h.
Proof.
intros Hd. apply lookup_lt_is_Some.
destruct t; try done; cbn [denotes] in Hd; by destruct (h !! a).
Qed.

Lemma stack_new h stack n a :
  stack_ok h stack n -> length h <= a -> bool_decide (a ∈ stack) = false.
Proof.
intros Hs Ha. apply bool_decide_eq_false_2. intros Hin.
destruct (Hs a Hin) as (tb & Hb%denotes_ref & _). lia.
Qed.

Lemma walk_array n h a stack vs items :
  writes n -> h !! a = Some (OArray vs) -> all2 (denotes h) items vs = true ->
  stack_ok h stack (frames (TArr items)) -> frames (TArr items) <= S n ->
  bool_decide (a ∈ stack) = false /\
  ser_items (serialize n (Some safeJsonReplacer) h (a :: stack)) 0 vs
  = Ok (List.map wire items).
Proof.
intros IH Ha Hall Hs Hn.
assert (denotes h (TArr items) (VRef a) = true) as Hd by (cbn [denotes]; by rewrite Ha).
split; [by eapply stack_fresh|].
apply ser_items_wire with (h := h); [done|].
intros t v key Hin Ht. pose proof (list_max_elem frames _ _ Hin) as Hle.
simpl in Hn. apply IH; [done| |lia].
eapply stack_push; [exact Hs | exact Hd |]. simpl. lia.
Qed.

Lemma walk_object n h a stack ps fields :
  writes n -> h !! a = Some (OObject ps) ->
  all2 (fun kt kv => String.eqb (fst kt) (fst kv) && denotes h (snd kt) (snd kv))
       fields ps = true ->
  stack_ok h stack (frames (TObj fields)) -> frames (TObj fields) <= S n ->
  bool_decide (a ∈ stack) = false /\
  ser_members (serialize n (Some safeJsonReplacer) h (a :: stack)) ps
  = Ok (List.map (fun kt => (fst kt, wire (snd kt))) fields).
Proof.
intros IH Ha Hall Hs Hn.
assert (denotes h (TObj fields) (VRef a) = true) as Hd by (cbn [denotes]; by rewrite Ha).
split; [by eapply stack_fresh|].
apply ser_members_wire with (h := h); [done|].
intros kt v key Hin Ht.
pose proof (list_max_elem (fun kt => frames kt.2) _ _ Hin) as Hle.
simpl in Hn, Hle. apply IH; [done| |lia].
eapply stack_push; [exact Hs | exact Hd |]. simpl. lia.
Qed.

Lemma serialize_wire limit : writes limit.
Proof.
induction limit as [|n IH]; intros t h stack key v Hd Hs Hn.
{ pose proof (frames_pos t). lia. }
destruct t as [| b | z | s | items | fields | elems | entries | src fl | name msg st].
- by destruct v.
- destruct v as [| |b'| | |]; try done. simpl in *. by apply eqb_prop in Hd as ->.
- destruct v as [| | |[z'| | | ]| |]; try done. simpl in *.
  by apply Z.eqb_eq in Hd as ->.
- destruct v as [| | | |s'|]; try done. simpl in *.
  by apply String.eqb_eq in Hd as ->.
- destruct v as [| | | | |a]; try done. cbn [denotes] in Hd.
  destruct (h !! a) as [[]|] eqn:Ha; try done.
  cbn [serialize toJSON_step]. rewrite Ha.
  rewrite (replacer_keeps_containers _ _ _ _ Ha I). cbn [bind]. rewrite Ha.
  destruct (walk_array n h a stack _ _ IH Ha Hd Hs Hn) as [-> ->]. done.
- destruct v as [| | | | |a]; try done. cbn [denotes] in Hd.
  destruct (h !! a) as [[]|] eqn:Ha; try done.
  cbn [serialize toJSON_step]. rewrite Ha.
  rewrite (replacer_keeps_containers _ _ _ _ Ha I). cbn [bind]. rewrite Ha.
  cbn [own_enumerable].
  destruct (walk_object n h a stack _ _ IH Ha Hd Hs Hn) as [-> ->]. done.
- destruct v as [| | | | |a]; try done. cbn [denotes] in Hd.
  destruct (h !! a) as [[]|] eqn:Ha; try done.
  cbn [serialize toJSON_step]. rewrite Ha. cbn [safeJsonReplacer]. rewrite Ha.
  cbn [alloc bind].
  set (h1 := h ++ [OArray elems0]).
  set (ps := [("__type", VStr "Set"); ("value", VRef (length h))]).
  rewrite lookup_alloc. cbn [own_enumerable].
  destruct (walk_object n (h1 ++ [OObject ps]) (length h1) stack ps
              [("__type", TStr "Set"); ("value", TArr elems)] IH) as [-> ->].
  + apply lookup_alloc.
  + subst ps h1. cbn [all2 fst snd denotes]. rewrite !String.eqb_refl.
    rewrite <- app_assoc, lookup_app_r, Nat.sub_diag by lia. simpl.
    rewrite (denotes_items_extend _ _ _ _ Hd). done.
  + subst h1. rewrite <- app_assoc. eapply stack_extend; [exact Hs|]. simpl. lia.
  + simpl in *. lia.
  + done.
- destruct v as [| | | | |a]; try done. cbn [denotes] in Hd.
  destruct (h !! a) as [[]|] eqn:Ha; try done.
  cbn [serialize toJSON_step]. rewrite Ha. cbn [safeJsonReplacer]. rewrite Ha.
  rewrite alloc_entries_spec.
  cbn [alloc bind].
  set (h1 := h ++ List.map (fun e => OArray [e.1; e.2]) entries0).
  set (arr := OArray (List.map VRef (seq (length h) (length entries0)))).
  set (ps := [("__type", VStr "Map"); ("value", VRef (length h1))]).
  rewrite lookup_alloc. cbn [own_enumerable].
  destruct (walk_object n ((h1 ++ [arr]) ++ [OObject ps]) (length (h1 ++ [arr])) stack ps
              [("__type", TStr "Map");
               ("value", TArr (List.map (fun kv => TArr [kv.1; kv.2]) entries))] IH)
    as [-> ->].
  + apply lookup_alloc.
  + subst ps. cbn [all2 fst snd denotes]. rewrite !String.eqb_refl.
    rewrite <- app_assoc, lookup_app_r, Nat.sub_diag by lia. simpl.
    rewrite andb_true_r. eapply (denotes_entries _ entries entries0 h).
    * subst h1. rewrite <- !app_assoc. reflexivity.
    * subst h1. rewrite <- !app_assoc. by apply denotes_pairs_extend.
  + subst h1. rewrite <- !app_assoc. eapply stack_extend; [exact Hs|].
    pose proof (frames_entries entries). simpl in *. lia.
  + pose proof (frames_entries entries). simpl in *. lia.
  + simpl. by rewrite map_map.
- destruct v as [| | | | |a]; try done. cbn [denotes] in Hd.
  destruct (h !! a) as [[]|] eqn:Ha; try done.
  apply andb_true_iff in Hd as [->%String.eqb_eq ->%String.eqb_eq].
  cbn [serialize toJSON_step]. rewrite Ha. cbn [safeJsonReplacer]. rewrite Ha.
  cbn [alloc bind].
  set (ps := [("__type", VStr "RegExp"); ("source", VStr source); ("flags", VStr flags)]).
  rewrite lookup_alloc. cbn [own_enumerable].
  destruct (walk_object n (h ++ [OObject ps]) (length h) stack ps
              [("__type", TStr "RegExp"); ("source", TStr source); ("flags", TStr flags)]
              IH) as [-> ->].
  + apply lookup_alloc.
  + subst ps. cbn [all2 fst snd denotes]. by rewrite !String.eqb_refl.
  + eapply stack_extend; [exact Hs|]. simpl. lia.
  + simpl in *. lia.
  + done.
- destruct v as [| | | | |a]; try done. cbn [denotes] in Hd.
  destruct (h !! a) as [[]|] eqn:Ha; try done.
  apply andb_true_iff in Hd as [[->%bool_decide_eq_true ->%String.eqb_eq]%andb_true_iff
                                  ->%bool_decide_eq_true].
  cbn [serialize toJSON_step]. rewrite Ha. cbn [safeJsonReplacer]. rewrite Ha.
  cbn [alloc bind].
  rewrite lookup_alloc. cbn [own_enumerable].
  rewrite (stack_new _ _ _ (length h) Hs) by lia.
  destruct n as [|n']; [simpl in Hn; lia|].
  by destruct name, st.
Qed.

End Writing.

(** ** Building an object member by member *)

Section Fields.

Implicit Types (ps kvs : list (string * value)) (k : string) (v : value).

Lemma has_key_absent k ps : k ∉ ps.*1 -> has_key k ps = false.
Proof.
induction ps as [|[k0 v0] ps IH]; simpl; [done|].
intros [Hne Hin]%not_elem_of_cons.
destruct (String.eqb k k0) eqn:E; [by apply String.eqb_eq in E | auto].
Qed.

Lemma insert_index_last n ps k v :
  forallb (fun k' => match array_index k' with
                     | Some m => (m <? n)%N
                     | None => false
                     end) ps.*1 = true ->
  insert_index n k v ps = ps ++ [(k, v)].
Proof.
induction ps as [|[k0 v0] ps IH]; simpl; [done|].
intros [Hhd Htl]%andb_true_iff.
destruct (array_index k0) as [m|]; [|done]. rewrite Hhd. by rewrite IH.
Qed.

Lemma set_prop_last ps k v :
  stays_last ps.*1 k = true -> set_prop ps k v = ps ++ [(k, v)].
Proof.
unfold stays_last, set_prop.
intros [Hnew%negb_true_iff%bool_decide_eq_false Hidx]%andb_true_iff.
rewrite (has_key_absent _ _ Hnew).
destruct (array_index k) as [n|]; [by apply insert_index_last | done].
Qed.

Lemma fold_set_prop kvs : forall ps,
  keys_in_order ps.*1 kvs.*1 = true ->
  fold_left (fun acc kv => set_prop acc kv.1 kv.2) kvs ps = ps ++ kvs.
Proof.
induction kvs as [|[k v] kvs IH]; intros ps; simpl; [by rewrite app_nil_r|].
intros [Hk Hrest]%andb_true_iff.
rewrite (set_prop_last _ _ _ Hk). rewrite IH.
- by rewrite <- app_assoc.
- by rewrite fmap_app.
Qed.

Lemma filter_all {A} (P : A -> Prop) `{forall x, Decision (P x)} (l : list A) :
  Forall P l -> filter P l = l.
Proof.
induction 1 as [|x l Hx _ IH]; [done|]. rewrite filter_cons_True by done. by rewrite IH.
Qed.

(** Members in the order of enumeration, none of them [undefined], make
    the object that lists them. *)
Lemma build_fields_id kvs :
  keys_in_order [] kvs.*1 = true -> Forall (fun kv => kv.2 <> VUndefined) kvs ->
  build_fields kvs = kvs.
Proof.
intros Hord Hdef. unfold build_fields.
rewrite (fold_set_prop kvs []) by done. simpl. by apply filter_all.
Qed.

Lemma keys_in_order_apart ks : forall seen k,
  keys_in_order seen ks = true -> k ∈ seen -> k ∉ ks.
Proof.
induction ks as [|k0 ks IH]; intros seen k; simpl; [intros _ _; apply not_elem_of_nil|].
intros [[Hnew%negb_true_iff%bool_decide_eq_false _]%andb_true_iff Hrest]%andb_true_iff Hin.
apply not_elem_of_cons. split; [congruence|].
apply (IH (seen ++ [k0])); [done|]. apply elem_of_app. by left.
Qed.

Lemma keys_in_order_NoDup ks : forall seen, keys_in_order seen ks = true -> NoDup ks.
Proof.
induction ks as [|k0 ks IH]; intros seen; simpl; [constructor|].
intros [_ Hrest]%andb_true_iff. apply NoDup_cons. split; [|by eapply IH].
apply (keys_in_order_apart ks (seen ++ [k0])); [done|].
apply elem_of_app. right. apply list_elem_of_here.
Qed.

Lemma get_prop_members {A} (members : list (string * A)) : forall kvs pre,
  members.*1 = kvs.*1 -> NoDup ((pre ++ kvs).*1) ->
  (fun kx => (kx.1, get_prop kx.1 (pre ++ kvs))) <$> members = kvs.
Proof.
induction members as [|[k x] members IH]; intros [|[k' v] kvs] pre; simpl; try done.
intros [= <- Hkeys] Hnd. f_equal.
- f_equal. rewrite get_app_absent; [simpl; by rewrite String.eqb_refl|].
  apply has_key_absent. rewrite fmap_app in Hnd. apply NoDup_app in Hnd as (_ & Hnd & _).
  intros Hin. apply (Hnd k Hin). simpl. apply list_elem_of_here.
- specialize (IH kvs (pre ++ [(k, v)]) Hkeys).
  rewrite <- app_assoc in IH. apply IH. done.
Qed.

End Fields.

(** ** What the reviver builds from the document of a tree *)

Section Reviving.













Lemma map_fmap {A B} (f : A -> B) (l : list A) : List.map f l = f <$> l.
Proof. reflexivity. Qed.

Lemma wire_keys (fields : list (string * tree)) :
  (List.map (fun kt => (kt.1, wire kt.2)) fields).*1 = fields.*1.
Proof. induction fields as [|[k t] fields IH]; simpl; [done | by f_equal]. Qed.



Lemma intern_leaf t x h key :
  leaf_value t = Some x ->
  internalize (Some safeJsonReviver) h key (wire t) = Ok (h, x).
Proof. destruct t; simpl; try done; by intros [= <-]. Qed.

Lemma leaf_value_defined t x : leaf_value t = Some x -> x <> VUndefined.
Proof. destruct t; simpl; congruence. Qed.

(** An object whose members are all primitive reaches the reviver as it
    was written. *)
Lemma intern_leaves (fields : list (string * tree)) (kvs : list (string * value)) h key :
  Forall2 (fun kt kv => kt.1 = kv.1 /\ leaf_value kt.2 = Some kv.2) fields kvs ->
  keys_in_order [] fields.*1 = true ->
  internalize (Some safeJsonReviver) h key
              (JObj (List.map (fun kt => (kt.1, wire kt.2)) fields))
  = safeJsonReviver (h ++ [OObject kvs]) key (VRef (length h)).
Proof.
intros Hall Hord.
assert (kvs.*1 = fields.*1) as Hkeys.
{ clear Hord. induction Hall as [|[k t] [k' v] fields kvs [Hk _] _ IH]; [done|].
  rewrite !fmap_cons. simpl in Hk. by f_equal. }
assert (intern_members (internalize (Some safeJsonReviver)) h
          (List.map (fun kt => (kt.1, wire kt.2)) fields) = Ok (h, kvs)) as Hrun.
{ apply keys_in_order_NoDup in Hord. clear Hkeys.
  induction Hall as [|[k t] [k' v] fields kvs [Hk Hv] _ IH]; [done|].
  simpl in Hk, Hv. subst k'.
  rewrite fmap_cons in Hord. apply NoDup_cons in Hord as [Hnew Hnd].
  cbn [List.map intern_members fst snd]. rewrite wire_keys.
  rewrite bool_decide_eq_false_2 by done.
  rewrite (intern_leaf _ _ _ _ Hv). cbn [bind]. by rewrite (IH Hnd). }
cbn [internalize]. rewrite Hrun. cbn [bind].
pose proof (get_prop_members (List.map (fun kt => (kt.1, wire kt.2)) fields) kvs [])
  as Hget.
cbn [app] in Hget.
rewrite Hget; [| by rewrite wire_keys | rewrite Hkeys; by eapply keys_in_order_NoDup].
rewrite build_fields_id; [done | by rewrite Hkeys |].
clear -Hall. induction Hall as [|[k t] [k' v] fields kvs [_ Hv] _ IH]; constructor; auto.
by eapply leaf_value_defined.
Qed.





End Reviving.

(** ** The round trip *)

Section RoundTrip.

Lemma denotes_object h t v : leaf_value t = None -> denotes h t v = true ->
  exists a, v = VRef a /\ a < length h.
Proof.
intros Hleaf Hd. destruct t; try done; destruct v as [| | | | |a]; try done;
  exists a; (split; [done | by eapply denotes_ref]).
Qed.




(** A date never reaches the replacer as a date: its [toJSON] has made
    it a string before, and a string is what is read back. *)
Lemma date_comes_back_text :
  trySerialize 64 [ODate (Some 0%Z)] (VRef 0)
  = {| success := true; data := Some (Json.quote "1970-01-01T00:00:00.000Z");
       error := None |}
  /\ JSON_parse (Some safeJsonReviver) [ODate (Some 0%Z)]
                (Json.quote "1970-01-01T00:00:00.000Z")
     = Ok ([ODate (Some 0%Z)], VStr "1970-01-01T00:00:00.000Z").
Proof. split; by vm_compute. Qed.

End RoundTrip.

(** * Further properties *)

(** ** The fingerprint and the content of the arguments *)

Section Contents.

(** The text that is hashed for arguments of known content. *)
Lemma canonical_wire limit h args ts :
  all2 (denotes h) ts args = true -> frames (TArr ts) <= limit ->
  canonical limit h args = Ok (Some (compact (wire (TArr ts)))).
Proof.
intros Hd Hn. unfold canonical, JSON_stringify.
rewrite (serialize_wire limit (TArr ts) (h ++ [OArray args]) [] EmptyString
           (VRef (length h))); [done| | |done].
- cbn [denotes]. rewrite lookup_alloc. by apply denotes_items_extend.
- intros b Hb. by apply elem_of_nil in Hb.
Qed.


(** X1.  The fingerprint is a function of the content of the arguments:
    two argument lists that hold the same content, in whatever heaps, at
    whatever addresses and through whatever objects, have a fingerprint,
    and it is the same. *)
Theorem fingerprint_by_content limit1 limit2 h1 h2 args1 args2 ts :
  all2 (denotes h1) ts args1 = true -> all2 (denotes h2) ts args2 = true ->
  frames (TArr ts) <= limit1 -> frames (TArr ts) <= limit2 ->
  exists fp,
    generateHash limit1 h1 args1 = Ok fp /\ generateHash limit2 h2 args2 = Ok fp.
Proof.
intros Hd1 Hd2 Hn1 Hn2. exists (Md5.md5_hex (compact (wire (TArr ts)))).
rewrite !generateHash_canonical.
by rewrite (canonical_wire _ _ _ _ Hd1 Hn1), (canonical_wire _ _ _ _ Hd2 Hn2).
Qed.

(** The same arguments in two heaps: an array of [1] and the string [a]. *)
Lemma fingerprint_by_content_witness :
  exists fp,
    generateHash 8 [OArray [num 1]] [VRef 0; VStr "a"] = Ok fp
    /\ generateHash 64 [ODate None; OArray [num 1]] [VRef 1; VStr "a"] = Ok fp.
Proof.
apply (fingerprint_by_content 8 64 [OArray [num 1]] [ODate None; OArray [num 1]]
         [VRef 0; VStr "a"] [VRef 1; VStr "a"] [TArr [TNum 1]; TStr "a"]);
  [reflexivity | reflexivity | simpl; lia | simpl; lia].
Defined.



End Contents.

(** ** What is written for the values that have no JSON form of their own *)

Section Kinds.

Lemma parse_written h j :
  JSON_parse (Some safeJsonReviver) h (compact j)
  = internalize (Some safeJsonReviver) h EmptyString j.
Proof. unfold JSON_parse. by rewrite read_compact. Qed.

Lemma accepted limit h v j r :
  JSON_stringify limit (Some safeJsonReplacer) EmptyString h v = Ok (Some (compact j)) ->
  internalize (Some safeJsonReviver) h EmptyString j = Ok r ->
  trySerialize limit h v
  = {| success := true; data := Some (compact j); error := None |}.
Proof.
intros Hs Hp. unfold trySerialize. rewrite Hs.
change (default "undefined" (Some (compact j))) with (compact j).
by rewrite parse_written, Hp.
Qed.

(** X3.  A function is accepted: it is written as an envelope that holds
    its name, [anonymous] when it has none, and what is read back is a
    new function, the placeholder made for that name. *)
Theorem function_comes_back_placeholder limit h a name made_for :
  h !! a = Some (OFunction name made_for) -> 2 <= limit ->
  let shown := if Text.is_empty name then "anonymous" else name in
  let doc := JObj [("__type", JStr "Function"); ("name", JStr shown)] in
  trySerialize limit h (VRef a)
  = {| success := true; data := Some (compact doc); error := None |}
  /\ JSON_parse (Some safeJsonReviver) h (compact doc)
     = Ok (h ++ [OObject [("__type", VStr "Function"); ("name", VStr shown)];
                 OFunction EmptyString (Some (VStr shown))],
           VRef (S (length h))).
Proof.
intros Ha Hl shown doc.
assert (internalize (Some safeJsonReviver) h EmptyString doc
        = Ok (h ++ [OObject [("__type", VStr "Function"); ("name", VStr shown)];
                    OFunction EmptyString (Some (VStr shown))],
              VRef (S (length h)))) as Hp.
{ unfold doc.
  change (JObj [("__type", JStr "Function"); ("name", JStr shown)])
    with (JObj (List.map (fun kt => (kt.1, wire kt.2))
                  [("__type", TStr "Function"); ("name", TStr shown)])).
  rewrite (intern_leaves _ [("__type", VStr "Function"); ("name", VStr shown)]);
    [|by repeat constructor|done].
  cbn [safeJsonReviver]. rewrite lookup_alloc.
  cbn [has_key get_prop String.eqb Ascii.eqb Bool.eqb andb]. unfold alloc.
  rewrite <- app_assoc, length_app. simpl. by rewrite Nat.add_1_r. }
split; [|by rewrite parse_written].
eapply accepted; [|exact Hp].
destruct limit as [|[|n]]; [lia..|].
unfold JSON_stringify. cbn [serialize toJSON_step]. rewrite Ha.
cbn [safeJsonReplacer]. rewrite Ha. cbn [alloc bind]. rewrite lookup_alloc.
rewrite bool_decide_eq_false_2 by apply not_elem_of_nil.
by destruct (Text.is_empty name).
Qed.

(** [function fetchUser() {}] *)
Lemma function_comes_back_placeholder_witness :
  let doc := JObj [("__type", JStr "Function"); ("name", JStr "fetchUser")] in
  trySerialize 64 [OFunction "fetchUser" None] (VRef 0)
  = {| success := true; data := Some (compact doc); error := None |}
  /\ JSON_parse (Some safeJsonReviver) [OFunction "fetchUser" None] (compact doc)
     = Ok ([OFunction "fetchUser" None;
            OObject [("__type", VStr "Function"); ("name", VStr "fetchUser")];
            OFunction EmptyString (Some (VStr "fetchUser"))],
           VRef 2).
Proof.
assert (2 <= 64) as Hl by lia.
exact (function_comes_back_placeholder 64 [OFunction "fetchUser" None] 0 "fetchUser"
         None eq_refl Hl).
Defined.

(** X4.  A promise is accepted as well: whatever its state, it is written
    as a pending one, and what is read back is a new promise, rejected. *)
Theorem promise_comes_back_rejected limit h a st :
  h !! a = Some (OPromise st) -> 2 <= limit ->
  let doc := JObj [("__type", JStr "Promise"); ("status", JStr "pending")] in
  trySerialize limit h (VRef a)
  = {| success := true; data := Some (compact doc); error := None |}
  /\ JSON_parse (Some safeJsonReviver) h (compact doc)
     = Ok (h ++ [OObject [("__type", VStr "Promise"); ("status", VStr "pending")];
                 OPromise (Rejected "Cannot restore Promise object")],
           VRef (S (length h))).
Proof.
intros Ha Hl doc.
assert (internalize (Some safeJsonReviver) h EmptyString doc
        = Ok (h ++ [OObject [("__type", VStr "Promise"); ("status", VStr "pending")];
                    OPromise (Rejected "Cannot restore Promise object")],
              VRef (S (length h)))) as Hp.
{ unfold doc.
  change (JObj [("__type", JStr "Promise"); ("status", JStr "pending")])
    with (JObj (List.map (fun kt => (kt.1, wire kt.2))
                  [("__type", TStr "Promise"); ("status", TStr "pending")])).
  rewrite (intern_leaves _ [("__type", VStr "Promise"); ("status", VStr "pending")]);
    [|by repeat constructor|done].
  cbn [safeJsonReviver]. rewrite lookup_alloc.
  cbn [has_key get_prop String.eqb Ascii.eqb Bool.eqb andb]. unfold alloc.
  rewrite <- app_assoc, length_app. simpl. by rewrite Nat.add_1_r. }
split; [|by rewrite parse_written].
eapply accepted; [|exact Hp].
destruct limit as [|[|n]]; [lia..|].
unfold JSON_stringify. cbn [serialize toJSON_step]. rewrite Ha.
cbn [safeJsonReplacer]. rewrite Ha. cbn [alloc bind]. rewrite lookup_alloc.
by rewrite bool_decide_eq_false_2 by apply not_elem_of_nil.
Qed.

Lemma promise_comes_back_rejected_witness :
  let doc := JObj [("__type", JStr "Promise"); ("status", JStr "pending")] in
  trySerialize 64 [OPromise Pending] (VRef 0)
  = {| success := true; data := Some (compact doc); error := None |}
  /\ JSON_parse (Some safeJsonReviver) [OPromise Pending] (compact doc)
     = Ok ([OPromise Pending;
            OObject [("__type", VStr "Promise"); ("status", VStr "pending")];
            OPromise (Rejected "Cannot restore Promise object")],
           VRef 2).
Proof.
assert (2 <= 64) as Hl by lia.
exact (promise_comes_back_rejected 64 [OPromise Pending] 0 Pending eq_refl Hl).
Defined.

(** X5.  A date is accepted, and it comes back as a string: its [toJSON]
    has turned it into its ISO form before the replacer is asked, so that
    no envelope is written and the reviver has nothing to restore.  An
    invalid date comes back as [null]. *)
Theorem date_comes_back_string limit h a time :
  h !! a = Some (ODate time) -> 1 <= limit ->
  let doc := match time with Some t => JStr (toISOString t) | None => JNull end in
  let back := match time with Some t => VStr (toISOString t) | None => VNull end in
  trySerialize limit h (VRef a)
  = {| success := true; data := Some (compact doc); error := None |}
  /\ JSON_parse (Some safeJsonReviver) h (compact doc) = Ok (h, back).
Proof.
intros Ha Hl doc back.
assert (internalize (Some safeJsonReviver) h EmptyString doc = Ok (h, back)) as Hp
  by (unfold doc, back; by destruct time).
split; [|by rewrite parse_written].
eapply accepted; [|exact Hp].
destruct limit as [|n]; [lia|].
unfold JSON_stringify, doc. cbn [serialize toJSON_step]. rewrite Ha.
by destruct time.
Qed.

(** [new Date(0)] *)
Lemma date_comes_back_string_witness :
  trySerialize 64 [ODate (Some 0%Z)] (VRef 0)
  = {| success := true; data := Some (compact (JStr (toISOString 0)));
       error := None |}
  /\ JSON_parse (Some safeJsonReviver) [ODate (Some 0%Z)]
                (compact (JStr (toISOString 0)))
     = Ok ([ODate (Some 0%Z)], VStr (toISOString 0)).
Proof.
assert (1 <= 64) as Hl by lia.
exact (date_comes_back_string 64 [ODate (Some 0%Z)] 0 (Some 0%Z) eq_refl Hl).
Defined.

(** [undefined] has no JSON text, and [JSON.parse] does not read the word
    [undefined]: the value is refused, whatever room the stack has. *)
Lemma undefined_refused limit h : success (trySerialize limit h VUndefined) = false.
Proof.
unfold trySerialize, JSON_stringify. destruct limit as [|n]; [done|].
cbn [serialize toJSON_step safeJsonReplacer bind fmap option_fmap option_map].
change (default "undefined" None) with "undefined". unfold JSON_parse.
by replace (Json.read "undefined") with (@None json) by (by vm_compute).
Qed.

End Kinds.

(** ** What a call leaves alone *)

Section Frames.

Implicit Types (w : world) (b : Beatbox.t) (fn : body) (args : list value).

Lemma file_reads_log e w :
  file_reads (log e w)
  = file_reads w ++ match e with ReadFile p => [p] | _ => [] end.
Proof. unfold file_reads, log. simpl. rewrite omap_app. by destruct e. Qed.

Lemma same_elsewhere_refl b w : same_elsewhere b w w.
Proof. by repeat split. Qed.

Lemma same_elsewhere_trans b b' w w1 w2 :
  storageFile b' = storageFile b ->
  same_elsewhere b w w1 -> same_elsewhere b' w1 w2 -> same_elsewhere b w w2.
Proof.
intros Hf (Hn1 & Hl1 & Hd1) (Hn2 & Hl2 & Hd2).
split; [congruence|]. split; [congruence|].
intros p Hp. rewrite Hd2, Hd1; [done|done|].
unfold own_paths, tempFile in *. by rewrite Hf, Hn1.
Qed.

Lemma same_elsewhere_log b e w : same_elsewhere b w (log e w).
Proof. by repeat split. Qed.

Lemma not_own b time p :
  p ∉ own_paths b time ->
  p <> storageFile b /\ p <> tempFile b /\ p <> backup_path (storageFile b) time.
Proof.
unfold own_paths. rewrite !not_elem_of_cons. tauto.
Qed.

(** *** [saveStorage] *)

Lemma saveStorage_invoked w b : invoked (saveStorage w b) = invoked w.
Proof.
unfold saveStorage. destruct (negb _); [by rewrite invoked_log, app_nil_r|].
destruct (data _) as [text|]; [|by rewrite invoked_log, app_nil_r].
destruct (Fs.writeFile _ _ _) as [d1|e]; [|by rewrite !invoked_log, !app_nil_r].
cbn [disk_of log with_disk].
destruct (Fs.rename _ _ _) as [d2|e];
  rewrite ?invoked_log, ?app_nil_r; unfold invoked; simpl;
  by rewrite !omap_app, !app_nil_r.
Qed.

Lemma saveStorage_reads w b : file_reads (saveStorage w b) = file_reads w.
Proof.
unfold saveStorage. destruct (negb _); [by rewrite file_reads_log, app_nil_r|].
destruct (data _) as [text|]; [|by rewrite file_reads_log, app_nil_r].
destruct (Fs.writeFile _ _ _) as [d1|e]; [|by rewrite !file_reads_log, !app_nil_r].
cbn [disk_of log with_disk].
destruct (Fs.rename _ _ _) as [d2|e];
  rewrite ?file_reads_log, ?app_nil_r; unfold file_reads; simpl;
  by rewrite !omap_app, !app_nil_r.
Qed.


Lemma saveStorage_elsewhere w b : same_elsewhere b w (saveStorage w b).
Proof.
unfold saveStorage. destruct (negb _); [apply same_elsewhere_log|].
destruct (data _) as [text|]; [|apply same_elsewhere_log].
unfold Fs.writeFile. cbn [disk_of log].
destruct (disk_of w !! tempFile b) as [[content|]|] eqn:Htmp;
  try (by repeat split).
all: unfold Fs.rename; cbn [disk_of log with_disk]; rewrite lookup_insert_eq;
  destruct (<[tempFile b:=Fs.File text]> (disk_of w) !! storageFile b) as [[old|]|];
  repeat split; cbn [disk_of log with_disk]; try done;
  intros p (Hf & Ht & _)%not_own;
  rewrite ?lookup_insert_ne, ?lookup_delete_ne, ?lookup_insert_ne by done; done.
Qed.

(** *** Loading *)

Lemma recover_frame e w b w1 b1 res :
  recover e w b = Some (w1, b1, res) ->
  same_elsewhere b w w1 /\ file_reads w1 = file_reads w.
Proof.
unfold recover. destruct (bool_decide _); [intros [= <- <- <-]; by repeat split|].
destruct (is_SyntaxError e); [|done].
unfold Fs.rename. cbn [disk_of log].
destruct (disk_of w !! storageFile b) as [n|] eqn:Hfile.
- destruct n as [content|];
    destruct (disk_of w !! backup_path (storageFile b) (now w)) as [[old|]|];
    intros [= <- <- <-];
    (split; [|unfold file_reads; simpl; by rewrite ?omap_app, ?app_nil_r]);
    repeat split; cbn [disk_of log with_disk]; try done;
    intros p (Hf & _ & Hb)%not_own;
    rewrite ?lookup_insert_ne, ?lookup_delete_ne by done; done.
- intros [= <- <- <-]. split; [by repeat split | by rewrite file_reads_log, app_nil_r].
Qed.

Lemma load_from_file_frame w b w1 b1 res :
  load_from_file w b = (w1, b1, res) ->
  same_elsewhere b w w1 /\ file_reads w1 = file_reads w ++ [storageFile b].
Proof.
unfold load_from_file.
destruct (read_storage _ b) as [[h v]|e] eqn:Hread.
- intros [= <- <- <-]. split; [by repeat split|].
  unfold file_reads. simpl. by rewrite omap_app.
- destruct (recover e _ b) as [[[w2 b2] r2]|] eqn:Hrec.
  + intros [= <- <- <-]. apply recover_frame in Hrec as [Hs ->].
    split; [|by rewrite file_reads_log].
    eapply same_elsewhere_trans; [done|apply same_elsewhere_log|exact Hs].
  + intros [= <- <- <-]. split; [by repeat split | by rewrite file_reads_log].
Qed.

Lemma load_for_playback_frame w b w1 b1 res :
  load_for_playback w b = (w1, b1, res) ->
  same_elsewhere b w w1 /\ file_reads w1 = file_reads w ++ [storageFile b].
Proof.
unfold load_for_playback.
destruct (read_storage _ b) as [[h v]|e] eqn:Hread.
- intros [= <- <- <-]. split; [by repeat split|].
  unfold file_reads. simpl. by rewrite omap_app.
- destruct (recover e _ b) as [[[w2 b2] r2]|] eqn:Hrec.
  + intros [= <- <- <-]. apply recover_frame in Hrec as [Hs ->].
    split; [|by rewrite file_reads_log].
    eapply same_elsewhere_trans; [done|apply same_elsewhere_log|exact Hs].
  + intros [= <- <- <-]. split; [by repeat split | by rewrite file_reads_log].
Qed.

Lemma loadStorage_frame w b w1 b1 res :
  loadStorage w b = (w1, b1, res) ->
  same_elsewhere b w w1
  /\ file_reads w1 = file_reads w ++ (if initialized b then [] else [storageFile b]).
Proof.
unfold loadStorage. destruct (initialized b).
- intros [= <- <- <-]. rewrite app_nil_r. by repeat split.
- apply load_from_file_frame.
Qed.

(** *** The call of the function, and the recording *)

Lemma invoke_frame fn args w b :
  same_elsewhere b w (invoke fn args w).1
  /\ file_reads (invoke fn args w).1 = file_reads w.
Proof.
unfold invoke. destruct (fn args (heap_of w)) as [h res]. simpl.
repeat split. unfold file_reads. simpl. by rewrite omap_app, app_nil_r.
Qed.

Lemma record_frame hash result w b w1 b1 res :
  record hash result w b = (w1, b1, res) ->
  same_elsewhere b w w1 /\ invoked w1 = invoked w /\ file_reads w1 = file_reads w
  /\ storageFile b1 = storageFile b /\ mode b1 = mode b
  /\ initialized b1 = initialized b.
Proof.
unfold record. destruct (success _).
- destruct (storage_set _ _ _) as [s|e]; intros [= <- <- <-].
  + split; [apply (saveStorage_elsewhere w (with_storage s (initialized b) b))|].
    by rewrite saveStorage_invoked, saveStorage_reads.
  + by repeat split.
- intros [= <- <- <-]. rewrite invoked_log, file_reads_log, !app_nil_r.
  by repeat split.
Qed.

(** *** The two wrappers *)

Lemma wrapper_frame fn args w b :
  let r := wrapper fn args w b in
  same_elsewhere b w (world_after r)
  /\ (invoked (world_after r) = invoked w \/ invoked (world_after r) = invoked w ++ [args])
  /\ deferred r = None.
Proof.
unfold wrapper.
destruct (loadStorage w b) as [[w1 b1] loaded] eqn:Hload.
destruct (loadStorage_frame _ _ _ _ _ Hload) as [Hs1 _].
destruct (loadStorage_keeps _ _ _ _ _ Hload) as (Hi1 & _ & _ & Hf1).
destruct loaded as [[]|e]; [|by auto].
destruct (generateHash _ _ _) as [hash|e]; [|by auto].
destruct (mode b1).
- pose proof (invoke_frame fn args w1 b1) as [Hs2 _].
  pose proof (invoke_invoked fn args w1) as Hi2.
  destruct (invoke fn args w1) as [w2 res]. simpl in *.
  split; [by eapply same_elsewhere_trans|]. split; [right; congruence | done].
- pose proof (invoke_frame fn args w1 b1) as [Hs2 _].
  pose proof (invoke_invoked fn args w1) as Hi2.
  destruct (invoke fn args w1) as [w2 [result|e]]; simpl in *.
  + destruct (record hash result w2 b1) as [[w3 b3] stored] eqn:Hrec.
    destruct (record_frame _ _ _ _ _ _ _ Hrec) as (Hs3 & Hi3 & _).
    assert (same_elsewhere b w w3) as Hs.
    { eapply same_elsewhere_trans; [exact Hf1 | | exact Hs3].
      by eapply same_elsewhere_trans. }
    destruct stored; simpl; (split; [done|]); (split; [right; congruence | done]).
  + split; [by eapply same_elsewhere_trans|]. split; [right; congruence | done].
- destruct (storage_has _ _) as [[]|]; simpl; auto.
- simpl. auto.
Qed.

Lemma run_job_frame j w b :
  storageFile (run_job j w b).2 = storageFile b
  /\ same_elsewhere b w (run_job j w b).1
  /\ invoked (run_job j w b).1 = invoked w.
Proof.
unfold run_job.
assert (exists w1 b1 loaded,
          (if must_load j then load_from_file w b else (w, b, Ok tt)) = (w1, b1, loaded)
          /\ same_elsewhere b w w1 /\ invoked w1 = invoked w
          /\ storageFile b1 = storageFile b) as (w1 & b1 & loaded & -> & Hs1 & Hi1 & Hf1).
{ destruct (must_load j).
  - destruct (load_from_file w b) as [[w1 b1] loaded] eqn:Hload.
    destruct (load_from_file_frame _ _ _ _ _ Hload) as [Hs _].
    destruct (load_from_file_keeps _ _ _ _ _ Hload) as (Hi & _ & _ & Hf).
    by exists w1, b1, loaded.
  - exists w, b, (Ok tt). by repeat split. }
destruct loaded as [[]|e].
- destruct (record _ _ w1 b1) as [[w2 b2] stored] eqn:Hrec.
  destruct (record_frame _ _ _ _ _ _ _ Hrec) as (Hs2 & Hi2 & _ & Hf2 & _).
  assert (same_elsewhere b w w2) as Hs by (by eapply same_elsewhere_trans).
  destruct stored; simpl.
  + split; [congruence|]. split; [done | congruence].
  + split; [congruence|]. split.
    * eapply same_elsewhere_trans; [done | exact Hs | apply same_elsewhere_log].
    * rewrite invoked_log, app_nil_r. congruence.
- simpl. split; [done|]. split.
  + eapply same_elsewhere_trans; [done | exact Hs1 | apply same_elsewhere_log].
  + rewrite invoked_log, app_nil_r. congruence.
Qed.

Lemma syncWrapper_frame fn args w b :
  let r := syncWrapper fn args w b in
  same_elsewhere b w (world_after r)
  /\ (invoked (world_after r) = invoked w \/ invoked (world_after r) = invoked w ++ [args])
  /\ storageFile (self_after r) = storageFile b.
Proof.
unfold syncWrapper.
destruct (generateHash _ _ _) as [hash|e]; [|simpl; by auto using same_elsewhere_refl].
destruct (mode b).
- pose proof (invoke_frame fn args w b) as [Hs2 _].
  pose proof (invoke_invoked fn args w) as Hi2.
  destruct (invoke fn args w) as [w2 res]. simpl in *. auto.
- pose proof (invoke_frame fn args w b) as [Hs2 _].
  pose proof (invoke_invoked fn args w) as Hi2.
  destruct (invoke fn args w) as [w2 [result|e]]; simpl in *; auto.
- destruct (load_for_playback w b) as [[w1 b1] loaded] eqn:Hload.
  destruct (load_for_playback_frame _ _ _ _ _ Hload) as [Hs1 _].
  destruct (load_for_playback_keeps _ _ _ _ _ Hload) as (Hi1 & _ & _ & Hf1).
  destruct loaded as [[]|e]; [|simpl; by auto].
  destruct (storage_has _ _) as [[]|]; simpl; auto.
- simpl. auto using same_elsewhere_refl.
Qed.

(** X6.  A call, with what a synchronous recording leaves to be done
    later, changes nothing on the disk but the storage file of the
    instance, its temporary file and the backup it may make: every other
    path holds what it held.  Two instances with different storage files
    do not disturb each other. *)
Theorem call_touches_own_files f args w b p :
  p <> storageFile b -> p <> tempFile b ->
  let r := wrap f args w b in
  (p <> backup_path (storageFile b) (now w) ->
   disk_of (world_after r) !! p = disk_of w !! p)
  /\ (forall j later,
        deferred r = Some j -> p <> backup_path (storageFile b) (now later) ->
        disk_of (run_job j later (self_after r)).1 !! p = disk_of later !! p).
Proof.
intros Hf Ht r.
assert (forall time, p <> backup_path (storageFile b) time -> p ∉ own_paths b time) as Hp.
{ intros time Hb. unfold own_paths. rewrite !not_elem_of_cons. repeat split; try done.
  apply not_elem_of_nil. }
assert (same_elsewhere b w (world_after r)
        /\ storageFile (self_after r) = storageFile b) as [Hs1 Hf1].
{ unfold r, wrap. destruct (isAsync f).
  - destruct (wrapper_frame (call f) args w b) as (Hs & _ & _). split; [done|].
    unfold wrapper. destruct (loadStorage w b) as [[w1 b1] loaded] eqn:Hload.
    destruct (loadStorage_keeps _ _ _ _ _ Hload) as (_ & _ & _ & Hf1).
    destruct loaded as [[]|e]; [|done].
    destruct (generateHash _ _ _); [|done].
    destruct (mode b1); simpl; try done.
    + by destruct (invoke _ _ _).
    + destruct (invoke _ _ _) as [w2 [result|e]]; [|done].
      destruct (record _ _ _ _) as [[w3 b3] stored] eqn:Hrec.
      destruct (record_frame _ _ _ _ _ _ _ Hrec) as (_ & _ & _ & Hf3 & _).
      destruct stored; simpl; congruence.
    + by destruct (storage_has _ _) as [[]|].
  - by destruct (syncWrapper_frame (call f) args w b) as (Hs & _ & Hf'). }
split; [intros Hb; by apply Hs1, Hp|].
intros j later _ Hb.
destruct (run_job_frame j later (self_after r)) as (_ & Hs2 & _).
apply Hs2. unfold own_paths, tempFile in *. rewrite Hf1. by apply Hp.
Qed.

(** A synchronous recording next to the file of somebody else. *)
Lemma call_touches_own_files_witness :
  let w := on_disk {[ "other.json" := Fs.File "{}" ]} in
  let r := wrap syncAdd [num 2; num 3] w (fresh RECORD) in
  disk_of (world_after r) !! "other.json" = Some (Fs.File "{}")
  /\ disk_of (settle r).1 !! "other.json" = Some (Fs.File "{}").
Proof.
intros w r.
assert ("other.json" <> storageFile (fresh RECORD)) as H1 by discriminate.
assert ("other.json" <> tempFile (fresh RECORD)) as H2
  by (intros H; vm_compute in H; discriminate H).
assert (forall later : world,
          "other.json" <> backup_path (storageFile (fresh RECORD)) (now later)) as H3.
{ intros later H. apply (f_equal (fun s => String.get 0 s)) in H. discriminate H. }
destruct (call_touches_own_files syncAdd [num 2; num 3] w (fresh RECORD) "other.json"
            H1 H2) as [Hnow Hlater].
split; [exact (Hnow (H3 w))|].
exact (Hlater _ (world_after r) eq_refl (H3 _)).
Defined.

(** X7.  A call invokes the wrapped function at most once, with the
    arguments it was given; loading, recording and saving invoke nothing,
    nor does what a synchronous recording leaves to be done later. *)
Theorem call_invokes_at_most_once f args w b :
  let r := wrap f args w b in
  (invoked (world_after r) = invoked w \/ invoked (world_after r) = invoked w ++ [args])
  /\ (forall j later b', invoked (run_job j later b').1 = invoked later).
Proof.
intros r. split.
- unfold r, wrap. destruct (isAsync f).
  + by destruct (wrapper_frame (call f) args w b) as (_ & Hi & _).
  + by destruct (syncWrapper_frame (call f) args w b) as (_ & Hi & _).
- intros j later b'. by destruct (run_job_frame j later b') as (_ & _ & Hi).
Qed.

(** X8.  On the asynchronous path the storage file is read by the first
    call only: a call on an initialised instance reads no file, and a call
    whose load went through leaves the instance initialised. *)
Theorem async_reads_once fn args w b :
  let r := wrapper fn args w b in
  file_reads (world_after r)
  = file_reads w ++ (if initialized b then [] else [storageFile b])
  /\ (forall w1 b1, loadStorage w b = (w1, b1, Ok tt) ->
                    initialized (self_after r) = true)
  /\ (initialized b = true -> initialized (self_after r) = true).
Proof.
intros r.
assert (file_reads (world_after r)
        = file_reads w ++ (if initialized b then [] else [storageFile b])
        /\ forall w1 b1, loadStorage w b = (w1, b1, Ok tt) ->
                         initialized (self_after r) = true) as [Hreads Hinit].
{ unfold r, wrapper.
  destruct (loadStorage w b) as [[w1 b1] loaded] eqn:Hload.
  destruct (loadStorage_frame _ _ _ _ _ Hload) as [_ Hr1].
  destruct loaded as [[]|e]; [|split; [done | by intros ? ? [=]]].
  pose proof (loadStorage_initialized _ _ _ _ Hload) as Hi1.
  destruct (generateHash _ _ _) as [hash|e]; [|by split].
  destruct (mode b1).
  - pose proof (invoke_frame fn args w1 b1) as [_ Hr2].
    destruct (invoke fn args w1) as [w2 res]. simpl in *. split; [congruence | done].
  - pose proof (invoke_frame fn args w1 b1) as [_ Hr2].
    destruct (invoke fn args w1) as [w2 [result|e]]; simpl in *.
    + destruct (record hash result w2 b1) as [[w3 b3] stored] eqn:Hrec.
      destruct (record_frame _ _ _ _ _ _ _ Hrec) as (_ & _ & Hr3 & _ & _ & Hi3).
      destruct stored; simpl; (split; [congruence|]); intros _ _ _; congruence.
    + split; [congruence | done].
  - destruct (storage_has _ _) as [[]|]; simpl; by split.
  - by split. }
split; [done|]. split; [done|].
intros Hi. apply (Hinit w b). unfold loadStorage. by rewrite Hi.
Qed.

(** A play-back call on an instance that has loaded. *)
Lemma async_reads_once_witness :
  let b := with_storage (Mapping []) true (fresh PLAYBACK) in
  let r := wrapper add [num 2; num 3] empty_world b in
  file_reads (world_after r) = [] /\ initialized (self_after r) = true.
Proof.
intros b r.
destruct (async_reads_once add [num 2; num 3] empty_world b) as (Hreads & _ & Hinit).
split; [exact Hreads | exact (Hinit eq_refl)].
Defined.

End Frames.

(** ** The entries of the mapping *)

Section Entries.

Implicit Types (ps : list (string * value)) (k : string) (v : value).

Lemma update_prop_other ps k k' v :
  k' <> k -> get_prop k' (update_prop k v ps) = get_prop k' ps.
Proof.
intros Hne. induction ps as [|[k0 v0] ps IH]; simpl; [done|].
destruct (String.eqb k k0) eqn:E; simpl.
- apply String.eqb_eq in E as <-.
  by rewrite (proj2 (String.eqb_neq k' k) Hne).
- destruct (String.eqb k' k0); [done | apply IH].
Qed.

Lemma insert_index_other n ps k k' v :
  k' <> k ->
  has_key k' (insert_index n k v ps) = has_key k' ps
  /\ get_prop k' (insert_index n k v ps) = get_prop k' ps.
Proof.
intros Hne. apply String.eqb_neq in Hne.
induction ps as [|[k0 v0] ps [IH1 IH2]]; simpl; [by rewrite Hne|].
destruct (array_index k0) as [m|]; [destruct (m <? n)%N|]; simpl; rewrite ?Hne; try done.
destruct (String.eqb k' k0); auto.
Qed.

Lemma append_prop_other ps k k' v :
  k' <> k ->
  has_key k' (ps ++ [(k, v)]) = has_key k' ps
  /\ get_prop k' (ps ++ [(k, v)]) = get_prop k' ps.
Proof.
intros Hne. apply String.eqb_neq in Hne.
induction ps as [|[k0 v0] ps [IH1 IH2]]; simpl; [by rewrite Hne|].
destruct (String.eqb k' k0); auto.
Qed.

(** [o[k] = v] leaves the other properties as they are. *)
Lemma set_prop_other ps k k' v :
  k' <> k ->
  has_key k' (set_prop ps k v) = has_key k' ps
  /\ get_prop k' (set_prop ps k v) = get_prop k' ps.
Proof.
intros Hne. unfold set_prop. destruct (has_key k ps).
- split; [apply has_key_update | by apply update_prop_other].
- destruct (array_index k); [by apply insert_index_other | by apply append_prop_other].
Qed.

Lemma record_other hash result w b fields other :
  storage b = Mapping fields -> hash <> other ->
  exists fields',
    storage (record hash result w b).1.2 = Mapping fields'
    /\ has_key other fields' = has_key other fields
    /\ get_prop other fields' = get_prop other fields.
Proof.
intros Hs Hne. unfold record. rewrite Hs. simpl.
destruct (success _); simpl; [|by exists fields].
exists (set_prop fields hash result). split; [done|].
by apply set_prop_other.
Qed.

(** X9.  Whatever an asynchronous call does, it leaves alone what the
    mapping holds for other arguments: an entry under a fingerprint that
    is not the one of the call is neither added, nor removed, nor
    changed.  The same holds of what a synchronous recording does later on
    an initialised instance. *)
Theorem recording_keeps_other_entries other :
  (forall fn args w b w1 b1 fields,
     loadStorage w b = (w1, b1, Ok tt) -> storage b1 = Mapping fields ->
     generateHash (limit w1) (heap_of w1) args <> Ok other ->
     exists fields',
       storage (self_after (wrapper fn args w b)) = Mapping fields'
       /\ has_key other fields' = has_key other fields
       /\ get_prop other fields' = get_prop other fields)
  /\ (forall j w b fields,
       must_load j = false -> storage b = Mapping fields -> job_hash j <> other ->
       exists fields',
         storage (run_job j w b).2 = Mapping fields'
         /\ has_key other fields' = has_key other fields
         /\ get_prop other fields' = get_prop other fields).
Proof.
split.
- intros fn args w b w1 b1 fields Hload Hs Hne. unfold wrapper. rewrite Hload.
  destruct (generateHash _ _ _) as [hash|e]; [|by exists fields].
  assert (hash <> other) as Hne' by congruence.
  destruct (mode b1); simpl.
  + destruct (invoke _ _ _). by exists fields.
  + destruct (invoke _ _ _) as [w2 [result|e]]; [|by exists fields].
    destruct (record_other hash result w2 b1 fields other Hs Hne')
      as (fields' & Hs' & Hk).
    destruct (record hash result w2 b1) as [[w3 b3] stored]. simpl in Hs'.
    destruct stored; by exists fields'.
  + destruct (storage_has _ _) as [[]|]; by exists fields.
  + by exists fields.
- intros j w b fields Hl Hs Hne. unfold run_job. rewrite Hl.
  destruct (record_other (job_hash j) (job_result j) w b fields other Hs Hne)
    as (fields' & Hs' & Hk).
  destruct (record _ _ w b) as [[w3 b3] stored]. simpl in Hs'.
  destruct stored; by exists fields'.
Qed.

(** The first recording of [add(2, 3)], seen from another fingerprint. *)
Lemma recording_keeps_other_entries_witness :
  exists fields',
    storage (self_after (wrapper add [num 2; num 3] empty_world (fresh RECORD)))
    = Mapping fields'
    /\ has_key "30eeb203d66f0c29522e851b605d8a9e" fields' = false
    /\ get_prop "30eeb203d66f0c29522e851b605d8a9e" fields' = VUndefined.
Proof.
destruct (load_missing empty_world (fresh RECORD) eq_refl) as [Hmiss _].
assert (generateHash 64 [] [num 2; num 3] <> Ok "30eeb203d66f0c29522e851b605d8a9e") as Hne
  by (intros H; vm_compute in H; discriminate H).
exact (proj1 (recording_keeps_other_entries "30eeb203d66f0c29522e851b605d8a9e")
         add [num 2; num 3] empty_world (fresh RECORD) _ _ [] Hmiss eq_refl Hne).
Defined.

End Entries.

(** ** From one instance to the disk, and from the disk to another *)

Section Disk.

Implicit Types (w : world) (b : Beatbox.t).
















End Disk.

(** ** Results and arguments that are refused *)

Section Refused.

Implicit Types (w : world) (b : Beatbox.t) (fn : body) (args : list value).

(** X13.  A function that returns [undefined] is never recorded: the
    recording code, which both paths run, refuses the result, logs the
    warning and leaves the mapping and the disk as they are, and the caller
    of the asynchronous wrapper gets [undefined]. *)
Theorem undefined_result_not_recorded :
  (forall hash w b,
     record hash VUndefined w b = (log (Warn unrecordable) w, b, Ok tt))
  /\ (forall fn args w b w1 b1 hash w2,
       mode b = RECORD ->
       loadStorage w b = (w1, b1, Ok tt) ->
       generateHash (limit w1) (heap_of w1) args = Ok hash ->
       invoke fn args w1 = (w2, Ok VUndefined) ->
       wrapper fn args w b
       = Reply (log (Warn unrecordable) w2) b1 (Ok VUndefined) None).
Proof.
assert (forall hash w b,
          record hash VUndefined w b = (log (Warn unrecordable) w, b, Ok tt)) as Hrec.
{ intros hash w b. unfold record. by rewrite undefined_refused. }
split; [exact Hrec|].
intros fn args w b w1 b1 hash w2 Hmode Hload Hhash Hinv.
destruct (loadStorage_keeps _ _ _ _ _ Hload) as (_ & _ & Hm & _).
unfold wrapper. by rewrite Hload, Hhash, Hm, Hmode, Hinv, Hrec.
Qed.

(** [() => undefined], recorded on the asynchronous path. *)
Lemma undefined_result_not_recorded_witness :
  let nothing : body := fun _ h => (h, Ok VUndefined) in
  let r := wrapper nothing [] empty_world (fresh RECORD) in
  returned r = Ok VUndefined
  /\ storage (self_after r) = Mapping []
  /\ last (events (world_after r)) = Some (Warn unrecordable).
Proof.
intros nothing r.
destruct (load_missing empty_world (fresh RECORD) eq_refl) as [Hmiss _].
pose proof (proj2 undefined_result_not_recorded nothing [] empty_world (fresh RECORD)
              _ _ "d751713988987e9331980363e24189ce" _ eq_refl Hmiss eq_refl eq_refl)
  as Hr.
unfold r. rewrite Hr. by vm_compute.
Defined.

Lemma ser_items_throws rec vs v : forall i,
  v ∈ vs -> (forall key, exists e, rec key v = Throw e) ->
  exists e, ser_items rec i vs = Throw e.
Proof.
induction vs as [|v0 vs IH]; intros i Hin Hthrow; [by apply elem_of_nil in Hin|].
simpl. apply elem_of_cons in Hin as [->|Hin].
- destruct (Hthrow (Text.nat_to_string i)) as [e ->]. by exists e.
- destruct (rec _ v0) as [j|e]; [|by exists e]. simpl.
  destruct (IH (S i) Hin Hthrow) as [e ->]. by exists e.
Qed.

Lemma ser_members_throws rec (ps : list (string * value)) v :
  v ∈ ps.*2 -> (forall key, exists e, rec key v = Throw e) ->
  exists e, ser_members rec ps = Throw e.
Proof.
induction ps as [|[k0 v0] ps IH]; intros Hin Hthrow; [by apply elem_of_nil in Hin|].
rewrite fmap_cons in Hin. simpl. apply elem_of_cons in Hin as [Heq|Hin].
- simpl in Heq. subst v0. destruct (Hthrow k0) as [e ->]. by exists e.
- destruct (rec k0 v0) as [j|e]; [|by exists e]. simpl.
  destruct (IH Hin Hthrow) as [e ->]. by exists e.
Qed.

(** Met again while it is being written, the object ends the walk. *)
Lemma met_again limit h stack key a :
  refers_to_itself h a -> a ∈ stack ->
  exists e, serialize limit (Some safeJsonReplacer) h stack key (VRef a) = Throw e.
Proof.
unfold refers_to_itself. intros Hself Hin.
destruct limit as [|n]; [by exists overflow|].
destruct (h !! a) as [[fields|elems| | | | | | |]|] eqn:Ha; try done;
  cbn [serialize toJSON_step]; rewrite Ha;
  rewrite (replacer_keeps_containers _ _ _ _ Ha I); cbn [bind]; rewrite Ha;
  rewrite bool_decide_eq_true_2 by done; by exists circular.
Qed.

Lemma self_reference_throws limit h stack key a :
  refers_to_itself h a ->
  exists e, serialize limit (Some safeJsonReplacer) h stack key (VRef a) = Throw e.
Proof.
intros Hself. destruct (decide (a ∈ stack)) as [Hin|Hout]; [by apply met_again|].
pose proof Hself as Hself'. unfold refers_to_itself in Hself'.
destruct limit as [|n]; [by exists overflow|].
destruct (h !! a) as [[fields|elems| | | | | | |]|] eqn:Ha; try done;
  cbn [serialize toJSON_step]; rewrite Ha;
  rewrite (replacer_keeps_containers _ _ _ _ Ha I); cbn [bind]; rewrite Ha;
  rewrite bool_decide_eq_false_2 by done.
- cbn [own_enumerable].
  destruct (ser_members_throws (serialize n (Some safeJsonReplacer) h (a :: stack))
              fields (VRef a) Hself') as [e ->]; [|by exists e].
  intros k. apply met_again; [done | apply list_elem_of_here].
- destruct (ser_items_throws (serialize n (Some safeJsonReplacer) h (a :: stack))
              elems (VRef a) 0 Hself') as [e ->]; [|by exists e].
  intros k. apply met_again; [done | apply list_elem_of_here].
Qed.

Lemma refers_extend h ext a : refers_to_itself h a -> refers_to_itself (h ++ ext) a.
Proof.
unfold refers_to_itself. destruct (h !! a) as [o|] eqn:Ha; [|done].
by rewrite (lookup_extend _ ext _ _ Ha).
Qed.

(** No fingerprint for arguments among which an object holds itself. *)
Lemma unhashable limit h args a :
  VRef a ∈ args -> refers_to_itself h a ->
  exists e, generateHash limit h args = Throw e.
Proof.
intros Hin Hself. rewrite generateHash_canonical. unfold canonical, JSON_stringify.
destruct limit as [|n]; [by exists overflow|].
cbn [serialize toJSON_step]. rewrite lookup_alloc.
rewrite (replacer_keeps_containers _ _ _ _ (lookup_alloc h (OArray args)) I).
cbn [bind]. rewrite lookup_alloc.
rewrite bool_decide_eq_false_2 by apply not_elem_of_nil.
destruct (ser_items_throws
            (serialize n (Some safeJsonReplacer) (h ++ [OArray args]) [length h])
            args (VRef a) 0 Hin) as [e ->]; [|by exists e].
intros k. by apply self_reference_throws, refers_extend.
Qed.

End Refused.

(** ** The reviver only adds to the heap *)

Section Envelopes.

(** The cases of the [switch] of the reviver. *)
Lemma switch_kind {A} (P : A -> Prop) (s : string)
      (on_set on_map on_date on_regexp on_error on_function on_promise otherwise : A) :
  (s = "Set" -> P on_set) -> (s = "Map" -> P on_map) -> (s = "Date" -> P on_date) ->
  (s = "RegExp" -> P on_regexp) -> (s = "Error" -> P on_error) ->
  (s = "Function" -> P on_function) -> (s = "Promise" -> P on_promise) ->
  (forallb (fun k => negb (String.eqb s k)) envelope_kinds = true -> P otherwise) ->
  P (match s with
     | "Set" => on_set
     | "Map" => on_map
     | "Date" => on_date
     | "RegExp" => on_regexp
     | "Error" => on_error
     | "Function" => on_function
     | "Promise" => on_promise
     | _ => otherwise
     end).
Proof.
intros H1 H2 H3 H4 H5 H6 H7 H8.
do 9 (try (destruct s as [|[[] [] [] [] [] [] [] []] s];
           try (first [ apply H8; reflexivity | apply H1; reflexivity
                      | apply H2; reflexivity | apply H3; reflexivity
                      | apply H4; reflexivity | apply H5; reflexivity
                      | apply H6; reflexivity | apply H7; reflexivity ]))).
Qed.

Lemma extends_refl (h : list obj) : exists ext, h = h ++ ext.
Proof. exists []. by rewrite app_nil_r. Qed.

Lemma extends_alloc (h : list obj) ext o : exists ext', (h ++ ext) ++ [o] = h ++ ext'.
Proof. exists (ext ++ [o]). by rewrite app_assoc. Qed.

Lemma iterate_extends h v h1 items :
  iterate h v = Ok (h1, items) -> exists ext, h1 = h ++ ext.
Proof.
unfold iterate. destruct v as [| | | |s|a]; try done.
- intros [= <- _]. apply extends_refl.
- destruct (h !! a) as [[]|]; try done; try (intros [= <- _]; apply extends_refl).
  rewrite alloc_entries_spec. intros [= <- _]. by eexists.
Qed.

Lemma new_Set_extends h v h' v' :
  new_Set h v = Ok (h', v') -> exists ext, h' = h ++ ext.
Proof.
unfold new_Set, alloc.
destruct v as [| | | |s|a];
  try (intros [= <- _]; by exists [OSet []]);
  (destruct (iterate h _) as [[h1 items]|e] eqn:Hit; [|done];
   apply iterate_extends in Hit as [ext ->]; cbn [bind];
   intros [= <- _]; apply extends_alloc).
Qed.

Lemma new_Map_extends h v h' v' :
  new_Map h v = Ok (h', v') -> exists ext, h' = h ++ ext.
Proof.
unfold new_Map, alloc.
destruct v as [| | | |s|a];
  try (intros [= <- _]; by exists [OMap []]);
  (destruct (iterate h _) as [[h1 items]|e] eqn:Hit; [|done];
   apply iterate_extends in Hit as [ext ->]; cbn [bind];
   destruct (add_entries _ _ _); [|done]; cbn [bind];
   intros [= <- _]; apply extends_alloc).
Qed.

Lemma reviver_extends h key v h' v' :
  safeJsonReviver h key v = Ok (h', v') -> exists ext, h' = h ++ ext.
Proof.
unfold safeJsonReviver.
destruct v as [| | | | |a]; try (intros [= <- _]; apply extends_refl).
destruct (h !! a) as [[fields| | | | | | | |]|]; try (intros [= <- _]; apply extends_refl).
destruct (has_key "__type" fields); [|intros [= <- _]; apply extends_refl].
destruct (get_prop "__type" fields) as [| | | |s|]; try (intros [= <- _]; apply extends_refl).
apply (switch_kind (fun r => r = Ok (h', v') -> exists ext, h' = h ++ ext)); intros _.
- apply new_Set_extends.
- apply new_Map_extends.
- unfold new_Date, alloc. intros [= <- _]. by eexists.
- unfold new_RegExp, alloc. destruct (RegExp_flags _); [|done]. intros [= <- _]. by eexists.
- unfold alloc. intros [= <- _]. by eexists.
- unfold alloc. intros [= <- _]. by eexists.
- unfold alloc. intros [= <- _]. by eexists.
- intros [= <- _]. apply extends_refl.
Qed.

Lemma intern_items_extends rec items :
  Forall (fun j => forall h key h' v, rec h key j = Ok (h', v) -> exists ext, h' = h ++ ext)
         items ->
  forall h i h' vs,
    intern_items rec h i items = Ok (h', vs) -> exists ext, h' = h ++ ext.
Proof.
induction 1 as [|j items Hj _ IH]; intros h i h' vs; simpl.
- intros [= <- _]. apply extends_refl.
- destruct (rec h _ j) as [[h1 v]|e] eqn:H1; [|done]. cbn [bind].
  destruct (intern_items rec h1 (S i) items) as [[h2 vs']|e] eqn:H2; [|done]. cbn [bind].
  intros [= <- _]. apply Hj in H1 as [ext1 ->]. apply IH in H2 as [ext2 ->].
  exists (ext1 ++ ext2). by rewrite app_assoc.
Qed.

Lemma intern_members_extends rec (members : list (string * json)) :
  Forall (fun kv => forall h key h' v, rec h key kv.2 = Ok (h', v) ->
                                        exists ext, h' = h ++ ext) members ->
  forall h h' kvs,
    intern_members rec h members = Ok (h', kvs) -> exists ext, h' = h ++ ext.
Proof.
induction 1 as [|[k j] members Hj _ IH]; intros h h' kvs; simpl.
- intros [= <- _]. apply extends_refl.
- destruct (bool_decide _); [apply IH|].
  destruct (rec h k j) as [[h1 v]|e] eqn:H1; [|done]. cbn [bind].
  destruct (intern_members rec h1 members) as [[h2 kvs']|e] eqn:H2; [|done]. cbn [bind].
  intros [= <- _]. apply Hj in H1 as [ext1 ->]. apply IH in H2 as [ext2 ->].
  exists (ext1 ++ ext2). by rewrite app_assoc.
Qed.

(** Reading a document leaves the objects of the heap where they are. *)
Lemma internalize_extends j : forall h key h' v,
  internalize (Some safeJsonReviver) h key j = Ok (h', v) -> exists ext, h' = h ++ ext.
Proof.
induction j as [| b | z | s | items IH | members IH] using json_induction;
  intros h key h' v; cbn [internalize apply_reviver];
  try apply reviver_extends.
- destruct (intern_items _ h 0 items) as [[h1 vs]|e] eqn:H1; [|done]. cbn [bind alloc].
  apply (intern_items_extends _ _ IH) in H1 as [ext1 ->].
  intros [ext2 ->]%reviver_extends. exists ((ext1 ++ [OArray vs]) ++ ext2).
  by rewrite !app_assoc.
- destruct (intern_members _ h members) as [[h1 kvs]|e] eqn:H1; [|done]. cbn [bind alloc].
  apply (intern_members_extends _ _ IH) in H1 as [ext1 ->].
  intros [ext2 ->]%reviver_extends. eexists ((ext1 ++ [_]) ++ ext2).
  by rewrite !app_assoc.
Qed.

Lemma loadStorage_extends w b w1 b1 res :
  loadStorage w b = (w1, b1, res) -> exists ext, heap_of w1 = heap_of w ++ ext.
Proof.
unfold loadStorage. destruct (initialized b); [intros [= <- _ _]; apply extends_refl|].
unfold load_from_file.
destruct (read_storage _ b) as [[h v]|e] eqn:Hread.
- intros [= <- _ _]. cbn [heap_of with_heap].
  unfold read_storage in Hread. destruct (Fs.readFile _ _) as [text|]; [|done].
  cbn [bind heap_of log] in Hread. unfold JSON_parse in Hread.
  destruct (Json.read text) as [j|]; [|done]. by apply internalize_extends in Hread.
- destruct (recover e _ b) as [[[w2 b2] r2]|] eqn:Hrec.
  + intros [= <- _ _]. apply recover_keeps in Hrec as (_ & -> & _). apply extends_refl.
  + intros [= <- _ _]. apply extends_refl.
Qed.

End Envelopes.

Section CyclicArguments.

(** X14.  A call among whose arguments an object holds itself has no
    fingerprint, and the fingerprint comes first in every mode: on both
    paths the call fails, the function is not invoked, and nothing is left
    to be done later. *)
Theorem self_referencing_argument_fails f args w b a :
  VRef a ∈ args -> refers_to_itself (heap_of w) a ->
  let r := wrap f args w b in
  (exists e, returned r = Throw e)
  /\ invoked (world_after r) = invoked w
  /\ deferred r = None.
Proof.
intros Hin Hself r. unfold r, wrap. destruct (isAsync f).
- unfold wrapper. destruct (loadStorage w b) as [[w1 b1] loaded] eqn:Hload.
  destruct (loadStorage_keeps _ _ _ _ _ Hload) as (Hinv & _).
  destruct (loadStorage_extends _ _ _ _ _ Hload) as [ext Hext].
  destruct loaded as [[]|e]; [|by eauto].
  destruct (unhashable (limit w1) (heap_of w1) args a Hin) as [e ->]; [|by eauto].
  rewrite Hext. by apply refers_extend.
- unfold syncWrapper.
  destruct (unhashable (limit w) (heap_of w) args a Hin Hself) as [e ->]. by eauto.
Qed.

(** The object of the test suite, passed as an argument. *)
Lemma self_referencing_argument_fails_witness :
  let w := with_heap self_object empty_world in
  (exists e, returned (wrap syncAdd [VRef 0] w (fresh BYPASS)) = Throw e)
  /\ invoked (world_after (wrap syncAdd [VRef 0] w (fresh BYPASS))) = [].
Proof.
intros w.
assert (refers_to_itself (heap_of w) 0) as Hself
  by (apply list_elem_of_further, list_elem_of_here).
destruct (self_referencing_argument_fails syncAdd [VRef 0] w (fresh BYPASS) 0
            (list_elem_of_here _ _) Hself) as (Hthrow & Hinv & _).
split; [exact Hthrow | exact Hinv].
Defined.

End CyclicArguments.

(** ** Arguments that an array does not keep *)

Section Blanks.

Lemma ser_items_ext rec1 rec2 vs :
  (forall key v, v ∈ vs -> rec1 key v = rec2 key v) ->
  forall i, ser_items rec1 i vs = ser_items rec2 i vs.
Proof.
induction vs as [|v vs IH]; intros Hrec i; [done|]. simpl.
rewrite (Hrec _ v) by apply list_elem_of_here.
rewrite IH; [done|]. intros key v' Hin. apply Hrec. by apply list_elem_of_further.
Qed.

Lemma ser_members_ext rec1 rec2 (ps : list (string * value)) :
  (forall key v, rec1 key v = rec2 key v) ->
  ser_members rec1 ps = ser_members rec2 ps.
Proof.
intros Hrec. induction ps as [|[k v] ps IH]; [done|]. simpl. by rewrite Hrec, IH.
Qed.

Lemma differ_at_extend c h1 h2 ext :
  differ_at c h1 h2 -> differ_at c (h1 ++ ext) (h2 ++ ext).
Proof.
intros (Hlen & (e1 & e2 & H1 & H2) & Hsame). split; [|split].
- rewrite !length_app. lia.
- exists e1, e2. by rewrite (lookup_extend _ _ _ _ H1), (lookup_extend _ _ _ _ H2).
- intros a Ha. destruct (decide (a < length h1)) as [Hlt|Hge].
  + rewrite !lookup_app_l by lia. by apply Hsame.
  + rewrite !lookup_app_r by lia. by rewrite Hlen.
Qed.

Lemma replacer_differ c h1 h2 key a :
  differ_at c h1 h2 -> a <> c ->
  match safeJsonReplacer h1 key (VRef a), safeJsonReplacer h2 key (VRef a) with
  | Ok (h1', v1), Ok (h2', v2) => v1 = v2 /\ differ_at c h1' h2'
  | Throw e1, Throw e2 => e1 = e2
  | _, _ => False
  end.
Proof.
intros Hd Ha. pose proof Hd as (Hlen & _ & Hsame).
unfold safeJsonReplacer. rewrite <- (Hsame a Ha).
destruct (h1 !! a) as [[fields|elems|elems|entries|time|src fl|name msg st|name ph|st]|];
  try done; unfold alloc; rewrite ?alloc_entries_spec, ?length_app, ?Hlen;
  try (split; [done|]; rewrite <- ?app_assoc; by apply differ_at_extend).
destruct time; [|done]. split; [done|]. by apply differ_at_extend.
Qed.

(** What is written for a value does not depend on an array that is
    being written: to meet it again is to fail, whatever it holds. *)
Lemma serialize_differ limit : forall c h1 h2 stack key v,
  differ_at c h1 h2 -> c ∈ stack ->
  serialize limit (Some safeJsonReplacer) h1 stack key v
  = serialize limit (Some safeJsonReplacer) h2 stack key v.
Proof.
induction limit as [|n IH]; intros c h1 h2 stack key v Hd Hin; [done|].
pose proof Hd as (Hlen & (e1 & e2 & Hc1 & Hc2) & Hsame).
cbn [serialize].
destruct v as [| | | | |a]; try done.
destruct (decide (a = c)) as [->|Ha].
- cbn [toJSON_step]. rewrite Hc1, Hc2.
  rewrite (replacer_keeps_containers _ _ _ _ Hc1 I),
          (replacer_keeps_containers _ _ _ _ Hc2 I).
  cbn [bind]. rewrite Hc1, Hc2. by rewrite bool_decide_eq_true_2.
- assert (toJSON_step h1 (VRef a) = toJSON_step h2 (VRef a)) as Hstep
    by (cbn [toJSON_step]; by rewrite (Hsame a Ha)).
  rewrite <- Hstep.
  destruct (toJSON_step h1 (VRef a)) as [| | | | |a'] eqn:Hv; try done.
  assert (a' = a) as ->.
  { cbn [toJSON_step] in Hv. destruct (h1 !! a) as [[]|]; try (by injection Hv);
      by destruct time. }
  pose proof (replacer_differ c h1 h2 key a Hd Ha) as Hrep.
  destruct (safeJsonReplacer h1 key (VRef a)) as [[h1' v1]|ex1];
    destruct (safeJsonReplacer h2 key (VRef a)) as [[h2' v2]|ex2]; try done;
    [|by subst].
  destruct Hrep as [<- Hd']. cbn [bind].
  pose proof Hd' as (_ & _ & Hsame').
  destruct v1 as [| | | | |a1]; try done.
  destruct (decide (a1 = c)) as [->|Ha1].
  + destruct Hd' as (_ & (e1' & e2' & Hc1' & Hc2') & _). rewrite Hc1', Hc2'.
    by rewrite bool_decide_eq_true_2.
  + rewrite <- (Hsame' a1 Ha1).
    destruct (h1' !! a1) as [o|]; [|done].
    assert (forall key' v',
              serialize n (Some safeJsonReplacer) h1' (a1 :: stack) key' v'
              = serialize n (Some safeJsonReplacer) h2' (a1 :: stack) key' v') as Hrec.
    { intros key' v'. apply (IH c); [done | by apply list_elem_of_further]. }
    destruct o; try done; destruct (bool_decide (a1 ∈ stack)); try done;
      first [ by rewrite (ser_members_ext _ _ _ Hrec)
            | rewrite (ser_items_ext _ _ elems (fun k v _ => Hrec k v)); done ].
Qed.

Lemma ser_items_alike rec1 rec2 vs1 vs2 :
  Forall2 (fun v1 v2 => forall key,
             bind (rec1 key v1) (fun j => Ok (default JNull j))
             = bind (rec2 key v2) (fun j => Ok (default JNull j))) vs1 vs2 ->
  forall i, ser_items rec1 i vs1 = ser_items rec2 i vs2.
Proof.
induction 1 as [|v1 v2 vs1 vs2 Hv _ IH]; intros i; [done|]. simpl.
specialize (Hv (Text.nat_to_string i)). rewrite (IH (S i)).
destruct (rec1 _ v1) as [j1|e1]; destruct (rec2 _ v2) as [j2|e2]; simpl in *;
  try done; [|congruence].
injection Hv as ->. by destruct (ser_items rec2 (S i) vs2).
Qed.

(** X15.  An argument that is [undefined], [NaN] or an infinity is hashed
    as [null]: to put [null] in its place changes neither the
    fingerprint nor, when there is none, the failure. *)
Theorem blank_arguments_hash_as_null limit h args :
  generateHash limit h args = generateHash limit h (as_element <$> args).
Proof.
rewrite !generateHash_canonical. unfold canonical, JSON_stringify.
destruct limit as [|n]; [done|].
set (h1 := h ++ [OArray args]). set (h2 := h ++ [OArray (as_element <$> args)]).
assert (differ_at (length h) h1 h2) as Hd.
{ split; [unfold h1, h2; by rewrite !length_app|]. split.
  - exists args, (as_element <$> args). split; apply lookup_alloc.
  - intros a Ha. unfold h1, h2. destruct (decide (a < length h)) as [Hlt|Hge].
    + by rewrite !lookup_app_l by lia.
    + rewrite !lookup_app_r by lia.
      destruct (a - length h) as [|k] eqn:E; [lia | done]. }
cbn [serialize toJSON_step]. unfold h1 at 1 2, h2 at 1 2. rewrite !lookup_alloc.
rewrite (replacer_keeps_containers _ _ _ _ (lookup_alloc h (OArray args)) I).
rewrite (replacer_keeps_containers _ _ _ _
           (lookup_alloc h (OArray (as_element <$> args))) I).
cbn [bind]. fold h1 h2. unfold h1 at 1, h2 at 1. rewrite !lookup_alloc.
rewrite bool_decide_eq_false_2 by apply not_elem_of_nil.
rewrite (ser_items_alike (serialize n (Some safeJsonReplacer) h1 [length h])
           (serialize n (Some safeJsonReplacer) h2 [length h])
           args (as_element <$> args)); [done|].
apply Forall2_fmap_r, Forall_Forall2_diag, Forall_forall. intros v _ key.
unfold as_element. simpl. destruct (blank v) eqn:Hb.
- destruct n as [|m]; [done|]. by destruct v as [| | |[]| |].
- by rewrite (serialize_differ n (length h) h1 h2 [length h] key v Hd
                (list_elem_of_here _ _)).
Qed.

End Blanks.

(** ** What the reviver changes *)

Section Untouched.

(** X16.  The reviver hands back what it is given, in the heap as it is,
    unless it is given an object that has a property [__type] whose value
    is one of the seven kinds: no other value is replaced, and on no other
    value does the reviver fail. *)
Theorem reviver_rewrites_envelopes_only h key v :
  safeJsonReviver h key v <> Ok (h, v) ->
  exists a fields kind,
    v = VRef a /\ h !! a = Some (OObject fields)
    /\ has_key "__type" fields = true
    /\ get_prop "__type" fields = VStr kind
    /\ kind ∈ envelope_kinds.
Proof.
unfold safeJsonReviver.
destruct v as [| | | | |a]; try done.
destruct (h !! a) as [[fields| | | | | | | |]|] eqn:Ha; try done.
destruct (has_key "__type" fields) eqn:Hkey; [|done].
destruct (get_prop "__type" fields) as [| | | |s|] eqn:Htype; try done.
assert (forall kind, s = kind -> kind ∈ envelope_kinds ->
          exists a' fields' kind',
            VRef a = VRef a' /\ h !! a' = Some (OObject fields')
            /\ has_key "__type" fields' = true
            /\ get_prop "__type" fields' = VStr kind'
            /\ kind' ∈ envelope_kinds) as Hfound.
{ intros kind <- Hin. by exists a, fields, s. }
apply (switch_kind (fun r => r <> Ok (h, VRef a) -> _)); try done;
  intros Hs _; apply (Hfound _ Hs); unfold envelope_kinds;
  repeat first [apply list_elem_of_here | apply list_elem_of_further].
Qed.

(** The plain object that has the shape of the envelope of a set. *)
Lemma reviver_rewrites_envelopes_only_witness :
  exists a fields kind,
    VRef 1 = VRef a /\ tagged !! a = Some (OObject fields)
    /\ has_key "__type" fields = true
    /\ get_prop "__type" fields = VStr kind
    /\ kind ∈ envelope_kinds.
Proof.
assert (safeJsonReviver tagged EmptyString (VRef 1) <> Ok (tagged, VRef 1)) as Hne
  by (intros H; vm_compute in H; discriminate H).
exact (reviver_rewrites_envelopes_only tagged EmptyString (VRef 1) Hne).
Defined.

End Untouched.

(** ** A save that cannot finish *)

Section Leftover.

(** X17.  When the mapping was accepted and written to the temporary
    file, and the rename fails because the storage path is a directory,
    [saveStorage] logs the error and returns: the temporary file stays on
    the disk with the whole text, and nothing else has changed. *)
Theorem failed_rename_leaves_temporary_file w b text :
  success (encode_storage w b) = true -> data (encode_storage w b) = Some text ->
  disk_of w !! storageFile b = Some Fs.Dir ->
  disk_of w !! tempFile b <> Some Fs.Dir ->
  disk_of (saveStorage w b) = <[tempFile b := Fs.File text]> (disk_of w)
  /\ exists msg, last (events (saveStorage w b)) = Some (LogError msg).
Proof.
intros Hok Hdata Hdir Htmp. unfold saveStorage. rewrite Hok, Hdata. cbn [negb].
unfold Fs.writeFile. cbn [disk_of log].
assert (Fs.rename (<[tempFile b := Fs.File text]> (disk_of w)) (tempFile b)
                  (storageFile b) = Throw (Fs.errno "EISDIR")) as Hren.
{ unfold Fs.rename. rewrite lookup_insert_eq.
  rewrite lookup_insert_ne by apply tempFile_differs. by rewrite Hdir. }
destruct (disk_of w !! tempFile b) as [[old|]|]; try done;
  cbn [disk_of log with_disk]; rewrite Hren; cbn [disk_of events log with_disk];
  (split; [done|]); rewrite last_snoc; by eexists.
Qed.

(** The storage path is a directory. *)
Lemma failed_rename_leaves_temporary_file_witness :
  let w := on_disk {[ testStorageFile := Fs.Dir ]} in
  let b := with_storage (Mapping [("k", num 5)]) true (fresh RECORD) in
  disk_of (saveStorage w b)
  = <[tempFile b := Fs.File (compact (wire (TObj [("k", TNum 5)])))]> (disk_of w)
  /\ exists msg, last (events (saveStorage w b)) = Some (LogError msg).
Proof.
intros w b.
assert (disk_of w !! tempFile b <> Some Fs.Dir) as Htmp
  by (intros H; vm_compute in H; discriminate H).
assert (disk_of w !! storageFile b = Some Fs.Dir) as Hdir by apply lookup_singleton_eq.
assert (success (encode_storage w b) = true) as Hok by (by vm_compute).
assert (data (encode_storage w b) = Some (compact (wire (TObj [("k", TNum 5)]))))
  as Hdata by (by vm_compute).
exact (failed_rename_leaves_temporary_file w b _ Hok Hdata Hdir Htmp).
Defined.

End Leftover.

(** ** Recordings add up *)

Section Accumulate.

Implicit Types (w : world) (b : Beatbox.t).











End Accumulate.

(** ** The function does not count *)

Section Shared.



End Shared.
